(** * A growable, type-erased stack: gstack.h and stack.h

    Shallow embedding of the two single-header stacks of the repository
    ([src/gstack.h], [src/stack.h]) over a small block-based model of the C
    allocator, and the properties of their capacity management. *)

From Stdlib Require Import ZArith Lia Bool List.
From Stdlib Require Strings.Byte.
From stdpp Require Import base option list gmap.

Local Open Scope Z_scope.

(** ** size_t arithmetic (LP64: 64-bit size_t) *)

Definition SIZE_BITS : Z := 64.
Definition SIZE_MAX : Z := 2 ^ SIZE_BITS - 1.

(** Unsigned arithmetic wraps modulo [SIZE_MAX + 1]. *)
Definition wrap (z : Z) : Z := z mod (SIZE_MAX + 1).

Definition sz_add (a b : Z) : Z := wrap (a + b).
Definition sz_sub (a b : Z) : Z := wrap (a - b).
Definition sz_mul (a b : Z) : Z := wrap (a * b).

(** ** Memory: blocks of bytes handed out by malloc/realloc *)

(** A byte of an allocated object is indeterminate until it is written. *)
Inductive memval : Type :=
  | Undef
  | Byte (b : Byte.byte).

(** A non-null pointer: the allocation it points into and a byte offset. *)
Record ptr : Type := Ptr { blk : positive; off : Z }.

Definition ptr_add (p : ptr) (k : Z) : ptr := Ptr (blk p) (off p + k).

(** Requests the program makes to the allocator, in program order. *)
Inductive call : Type :=
  | CMalloc (n : Z)
  | CRealloc (p : ptr) (n : Z)
  | CFree (p : ptr).

Record mem : Type := Mem {
  blocks : gmap positive (list memval);   (* live allocations *)
  nextblock : positive;                   (* next fresh allocation *)
  calls : list call                       (* allocator requests so far *)
}.

(** What the allocator answers when asked: it may refuse (NULL), and a
    granted realloc may keep the object in place or relocate it. *)
Inductive verdict : Type :=
  | Refuse
  | Grant (relocate : bool).

(** Computations over the memory; [None] is undefined behaviour (access
    outside a live object, division by zero, freeing a stray pointer). *)
Definition M (A : Type) : Type := mem -> option (A * mem).

Definition ret {A} (a : A) : M A := fun m => Some (a, m).

Definition bind {A B} (c : M A) (k : A -> M B) : M B :=
  fun m => match c m with
           | Some (a, m') => k a m'
           | None => None
           end.

Definition undefined {A} : M A := fun _ => None.

Notation "'let*' x := c 'in' k" := (bind c (fun x => k))
  (at level 10, x name, c at level 200, k at level 200, only parsing).

Definition record_call (c : call) (m : mem) : mem :=
  Mem (blocks m) (nextblock m) (calls m ++ [c]).

Definition fresh_bytes (n : Z) : list memval := replicate (Z.to_nat n) Undef.

(** realloc keeps the common prefix; bytes beyond it are indeterminate. *)
Definition resized (n : Z) (old : list memval) : list memval :=
  resize (Z.to_nat n) Undef old.

Definition malloc (v : verdict) (n : Z) : M (option ptr) := fun m =>
  let m := record_call (CMalloc n) m in
  match v with
  | Refuse => Some (None, m)
  | Grant _ =>
      let b := nextblock m in
      Some (Some (Ptr b 0),
            Mem (<[b := fresh_bytes n]> (blocks m)) (Pos.succ b) (calls m))
  end.

(** [realloc] is defined on a pointer that malloc or realloc returned and
    that was not released since. The stacks below only call it with a
    positive size on a valid stack, so a request of 0 bytes is not given a
    meaning of its own here. *)
Definition realloc (v : verdict) (p : ptr) (n : Z) : M (option ptr) := fun m =>
  match blocks m !! blk p with
  | Some old =>
      if off p =? 0 then
        let m := record_call (CRealloc p n) m in
        match v with
        | Refuse => Some (None, m)
        | Grant false =>
            Some (Some p,
                  Mem (<[blk p := resized n old]> (blocks m)) (nextblock m) (calls m))
        | Grant true =>
            let b := nextblock m in
            Some (Some (Ptr b 0),
                  Mem (<[b := resized n old]> (delete (blk p) (blocks m)))
                      (Pos.succ b) (calls m))
        end
      else None
  | None => None
  end.

Definition free (p : ptr) : M unit := fun m =>
  match blocks m !! blk p with
  | Some _ =>
      if off p =? 0 then
        let m := record_call (CFree p) m in
        Some (tt, Mem (delete (blk p) (blocks m)) (nextblock m) (calls m))
      else None
  | None => None
  end.

(** Reading [n] bytes at [p]: defined only inside a live object. *)
Definition load (m : mem) (p : ptr) (n : Z) : option (list memval) :=
  match blocks m !! blk p with
  | Some bs =>
      if (0 <=? off p) && (0 <=? n) && (off p + n <=? Z.of_nat (length bs))
      then Some (take (Z.to_nat n) (drop (Z.to_nat (off p)) bs))
      else None
  | None => None
  end.

Definition splice (bs : list memval) (o : Z) (vs : list memval) : list memval :=
  take (Z.to_nat o) bs ++ vs ++ drop (Z.to_nat o + length vs)%nat bs.

Definition store (p : ptr) (vs : list memval) : M unit := fun m =>
  match blocks m !! blk p with
  | Some bs =>
      if (0 <=? off p) && (off p + Z.of_nat (length vs) <=? Z.of_nat (length bs))
      then Some (tt, Mem (<[blk p := splice bs (off p) vs]> (blocks m))
                         (nextblock m) (calls m))
      else None
  | None => None
  end.

(** [memcpy(target, src, n)], the source object given by its bytes. *)
Definition memcpy (target : ptr) (src : list memval) (n : Z) : M unit :=
  if (0 <=? n) && (n <=? Z.of_nat (length src))
  then store target (take (Z.to_nat n) src)
  else undefined.

(** ** The stack header

    [struct gstack] and [struct stack] declare the same four fields. *)
Record gstack : Type := Hdr {
  data : ptr;
  size : Z;
  cap : Z;
  memb_size : Z
}.

Definition Stack : Type := gstack.

Definition set_data (s : gstack) (p : ptr) : gstack :=
  Hdr p (size s) (cap s) (memb_size s).
Definition set_size (s : gstack) (n : Z) : gstack :=
  Hdr (data s) n (cap s) (memb_size s).
Definition set_cap (s : gstack) (n : Z) : gstack :=
  Hdr (data s) (size s) n (memb_size s).

(** [sizeof (struct gstack)]: a pointer and three size_t. *)
Definition sizeof_hdr : Z := 32.

(** Lines 211-214 of gstack.h and 219-222 of stack.h: copy the element into
    the slot at index [size], then [++s->size] converted to bool. *)
Definition copy_in (s : gstack) (elem : list memval) : M (bool * gstack) :=
  let target := ptr_add (data s) (sz_mul (size s) (memb_size s)) in
  let* _ := memcpy target elem (memb_size s) in
  let s := set_size s (sz_add (size s) 1) in
  ret (negb (size s =? 0), s).

(** ** gstack.h *)

Definition gstack_is_full (s : gstack) : bool := size s =? cap s.

Definition gstack_is_empty (s : gstack) : bool := size s =? 0.

Definition gstack_size (s : gstack) : Z := size s.

Definition gstack_peek (s : gstack) : option ptr :=
  if gstack_is_empty s then None
  else Some (ptr_add (data s) (sz_mul (sz_sub (size s) 1) (memb_size s))).

Definition gstack_create (v_hdr v_buf : verdict) (cap memb_size : Z)
  : M (option (ptr * gstack)) :=
  if (cap =? 0) || (memb_size =? 0) || (cap >? SIZE_MAX / memb_size)
  then ret None
  else
    let* s := malloc v_hdr sizeof_hdr in
    match s with
    | Some sp =>
        let* d := malloc v_buf (sz_mul memb_size cap) in
        match d with
        | Some dp => ret (Some (sp, Hdr dp 0 cap memb_size))
        | None => let* _ := free sp in ret None
        end
    | None => ret None
    end.

Definition gstack_push (v : verdict) (s : gstack) (elem : list memval)
  : M (bool * gstack) :=
  if size s >=? cap s then
    let cond := cap s >? SIZE_MAX / 2 in
    if cond then ret (false, s)
    else
      let s := set_cap s (sz_mul (cap s) 2) in
      if memb_size s =? 0 then undefined
      else if cap s >? SIZE_MAX / memb_size s then ret (false, s)
      else
        let* tmp := realloc v (data s) (sz_mul (cap s) (memb_size s)) in
        match tmp with
        | None => ret (false, s)
        | Some tmp => copy_in (set_data s tmp) elem
        end
  else copy_in s elem.

Definition gstack_pop (v : verdict) (s : gstack) : M (option ptr * gstack) :=
  if gstack_is_empty s then ret (None, s)
  else
    let s := set_size s (sz_sub (size s) 1) in
    let* s :=
      if negb (size s =? 0) && (size s <=? cap s / 4) then
        let new_cap := cap s / 2 in
        let s := if negb (cap s mod 2 =? 0)
                 then set_cap s (sz_add (cap s) 1) else s in
        let* tmp := realloc v (data s) (sz_mul (memb_size s) new_cap) in
        match tmp with
        | Some tmp => ret (set_cap (set_data s tmp) new_cap)
        | None => ret s
        end
      else ret s in
    ret (Some (ptr_add (data s) (sz_mul (size s) (memb_size s))), s).

Definition gstack_destroy (sp : ptr) (s : gstack) : M unit :=
  let* _ := free (data s) in free sp.

(** ** stack.h *)

Definition stack_is_full (s : Stack) : bool := size s =? cap s.

Definition stack_is_empty (s : Stack) : bool := size s =? 0.

Definition stack_size (s : Stack) : Z := size s.

Definition stack_peek (s : Stack) : option ptr :=
  if stack_is_empty s then None
  else Some (ptr_add (data s) (sz_mul (sz_sub (size s) 1) (memb_size s))).

Definition stack_create (v_hdr v_buf : verdict) (cap memb_size : Z)
  : M (option (ptr * Stack)) :=
  if (cap =? 0) || (memb_size =? 0) || (cap >? SIZE_MAX / memb_size)
  then ret None
  else
    let* s := malloc v_hdr sizeof_hdr in
    match s with
    | Some sp =>
        let total_size := sz_mul memb_size cap in
        let* d := malloc v_buf total_size in
        match d with
        | Some dp => ret (Some (sp, Hdr dp 0 cap memb_size))
        | None => let* _ := free sp in ret None
        end
    | None => ret None
    end.

Section StackPush.

(** [BUFSIZ] of <stdio.h>, the linear growth step: a platform constant. *)
Variable BUFSIZ : Z.

Definition stack_push (v : verdict) (s : Stack) (elem : list memval)
  : M (bool * Stack) :=
  if size s >=? cap s then
    let grown :=
      if cap s >? SIZE_MAX / 2 then
        if sz_add (cap s) BUFSIZ <? cap s then None
        else Some (set_cap s (sz_add (cap s) BUFSIZ))
      else Some (set_cap s (sz_mul (cap s) 2)) in
    match grown with
    | None => ret (false, s)
    | Some s =>
        if memb_size s =? 0 then undefined
        else if cap s >? SIZE_MAX / memb_size s then ret (false, s)
        else
          let* tmp := realloc v (data s) (sz_mul (cap s) (memb_size s)) in
          match tmp with
          | None => ret (false, s)
          | Some tmp => copy_in (set_data s tmp) elem
          end
    end
  else copy_in s elem.

End StackPush.

Definition stack_pop (v : verdict) (s : Stack) : M (option ptr * Stack) :=
  if stack_is_empty s then ret (None, s)
  else
    let s := set_size s (sz_sub (size s) 1) in
    let top := ptr_add (data s) (sz_mul (size s) (memb_size s)) in
    let* s :=
      if negb (size s =? 0) && (size s <=? cap s / 4) then
        let* tmp := realloc v (data s) (sz_mul (cap s / 2) (memb_size s)) in
        match tmp with
        | Some tmp => ret (set_cap (set_data s tmp) (cap s / 2))
        | None => ret s
        end
      else ret s in
    ret (Some top, s).

Definition stack_destroy (sp : ptr) (s : Stack) : M unit :=
  let* _ := free (data s) in free sp.

(** ** Traces of operations on one stack *)

Inductive op : Type :=
  | OPush (v : verdict) (elem : list memval)
  | OPop (v : verdict)
  | OPeek
  | OIsFull
  | OIsEmpty
  | OSize.

Inductive result : Type :=
  | RBool (b : bool)
  | RPtr (p : option ptr)
  | RSize (n : Z).

Definition gstack_step (o : op) (s : gstack) : M (result * gstack) :=
  match o with
  | OPush v elem => let* r := gstack_push v s elem in ret (RBool (fst r), snd r)
  | OPop v => let* r := gstack_pop v s in ret (RPtr (fst r), snd r)
  | OPeek => ret (RPtr (gstack_peek s), s)
  | OIsFull => ret (RBool (gstack_is_full s), s)
  | OIsEmpty => ret (RBool (gstack_is_empty s), s)
  | OSize => ret (RSize (gstack_size s), s)
  end.

Fixpoint gstack_run (os : list op) (s : gstack) : M (list result * gstack) :=
  match os with
  | [] => ret ([], s)
  | o :: os =>
      let* r := gstack_step o s in
      let* rs := gstack_run os (snd r) in
      ret (fst r :: fst rs, snd rs)
  end.

Section StackRun.

Variable BUFSIZ : Z.

Definition stack_step (o : op) (s : Stack) : M (result * Stack) :=
  match o with
  | OPush v elem => let* r := stack_push BUFSIZ v s elem in ret (RBool (fst r), snd r)
  | OPop v => let* r := stack_pop v s in ret (RPtr (fst r), snd r)
  | OPeek => ret (RPtr (stack_peek s), s)
  | OIsFull => ret (RBool (stack_is_full s), s)
  | OIsEmpty => ret (RBool (stack_is_empty s), s)
  | OSize => ret (RSize (stack_size s), s)
  end.

Fixpoint stack_run (os : list op) (s : Stack) : M (list result * Stack) :=
  match os with
  | [] => ret ([], s)
  | o :: os =>
      let* r := stack_step o s in
      let* rs := stack_run os (snd r) in
      ret (fst r :: fst rs, snd rs)
  end.

End StackRun.

(** ** Valid states *)

(** The two numeric invariants of the data model. *)
Definition state_inv (s : gstack) : Prop :=
  size s <= cap s /\ cap s * memb_size s <= SIZE_MAX.

(** A valid stack: the numeric invariants, and a live buffer of exactly
    [cap * memb_size] bytes behind [data]. *)
Record wf (s : gstack) (m : mem) : Prop := {
  wf_memb : 1 <= memb_size s;
  wf_cap : 1 <= cap s;
  wf_size : 0 <= size s <= cap s;
  wf_bytes : cap s * memb_size s <= SIZE_MAX;
  wf_base : off (data s) = 0;
  wf_buf : exists bs, blocks m !! blk (data s) = Some bs
                      /\ Z.of_nat (length bs) = cap s * memb_size s
}.

(** [PTRDIFF_MAX] of <stdint.h> (LP64): no object is larger. *)
Definition PTRDIFF_MAX : Z := 2 ^ 63 - 1.




(** The address of the element at index [i]. *)
Definition slot (s : gstack) (i : Z) : ptr := ptr_add (data s) (i * memb_size s).

(** What both pushes do once the grown capacity is in the header: the
    overflow guard, the reallocation and the copy (gstack.h 198-214,
    stack.h 206-222). *)
Definition grow_tail (v : verdict) (s : gstack) (elem : list memval)
  : M (bool * gstack) :=
  if memb_size s =? 0 then undefined
  else if cap s >? SIZE_MAX / memb_size s then ret (false, s)
  else
    let* tmp := realloc v (data s) (sz_mul (cap s) (memb_size s)) in
    match tmp with
    | None => ret (false, s)
    | Some tmp => copy_in (set_data s tmp) elem
    end.

(** The capacity a shrink reaches according to the specification: half the
    capacity, rounded up by one unit when the capacity was odd. *)
Definition spec_shrunk_cap (c : Z) : Z := c / 2 + c mod 2.

(** ** Predicates on traces *)

(** Whether pop would ask for a smaller buffer in this state. *)
Definition shrinks (s : gstack) : bool :=
  negb (size s =? 0)
  && negb (sz_sub (size s) 1 =? 0)
  && (sz_sub (size s) 1 <=? cap s / 4).

(** The operations the equivalence of the two headers is stated for: no push
    while the capacity exceeds SIZE_MAX / 2, no shrink at an odd capacity. *)
Definition agreeable (o : op) (s : gstack) : bool :=
  match o with
  | OPush _ _ => cap s <=? SIZE_MAX / 2
  | OPop _ => negb (shrinks s && negb (cap s mod 2 =? 0))
  | _ => true
  end.

Fixpoint within_conditions (os : list op) (s : gstack) (m : mem) : bool :=
  match os with
  | [] => true
  | o :: os =>
      agreeable o s &&
      match gstack_step o s m with
      | Some ((_, s'), m') => within_conditions os s' m'
      | None => true
      end
  end.

(** A pop whose shrink the allocator answers by moving the buffer. *)
Definition relocating (o : op) : bool :=
  match o with
  | OPop (Grant true) => true
  | _ => false
  end.

(** The outcomes of one operation in gstack.h and in stack.h: the same
    header and memory, and the same result unless [differ] allows it. *)
Definition outcomes_agree {A} (differ : bool)
    (g k : option (A * gstack * mem)) : Prop :=
  match g, k with
  | Some ((rg, sg), mg), Some ((rk, sk), mk) =>
      sg = sk /\ mg = mk /\ (differ = false -> rg = rk)
  | None, None => True
  | _, _ => False
  end.

(** ** Concrete states used in the examples *)

Definition b1 : memval := Byte Byte.x01.
Definition b2 : memval := Byte Byte.x02.
Definition b3 : memval := Byte Byte.x03.

Definition mem_of (bs : list memval) : mem := Mem {[ 1%positive := bs ]} 2 [].

Definition buf4 : list memval := [b1; b2; b3; b1].
Definition buf8 : list memval := [b1; b2; b3; Undef; Undef; Undef; Undef; Undef].
Definition buf9 : list memval := buf8 ++ [Undef].

(** Four one-byte elements in a buffer of four: full. *)
Definition full4 : gstack := Hdr (Ptr 1 0) 4 4 1.
(** Three one-byte elements in a buffer of eight, and of nine. *)
Definition three_of_8 : gstack := Hdr (Ptr 1 0) 3 8 1.
Definition three_of_9 : gstack := Hdr (Ptr 1 0) 3 9 1.
(** A full stack whose capacity is just above SIZE_MAX / 2. *)
Definition at_ceiling : gstack := Hdr (Ptr 1 0) (2 ^ 63) (2 ^ 63) 1.
(** A full stack of one element of 2^63 bytes. *)
Definition one_huge : gstack := Hdr (Ptr 1 0) 1 1 (2 ^ 63).
(** A memory whose block 1 has 2^63 bytes. *)
Definition huge_mem : mem := mem_of (fresh_bytes (2 ^ 63)).

(** Create a stack of eight one-byte elements, push three, pop one. *)
Definition session : list op :=
  [OPush (Grant false) [b1]; OPush (Grant false) [b2]; OPush (Grant false) [b3];
   OPeek; OPop (Grant true)].

(** Fill a stack of four one-byte elements, push once more with the growth
    refused, and ask whether the stack is full. *)
Definition refused_growth : list op :=
  [OPush (Grant false) [b1]; OPush (Grant false) [b2]; OPush (Grant false) [b3];
   OPush (Grant false) [b1]; OPush Refuse [b2]; OIsFull].

(** ** The stack as the list of its elements *)

(** A valid stack whose slots, bottom first, read as the elements [es]. *)
Definition repr (s : gstack) (m : mem) (es : list (list memval)) : Prop :=
  wf s m /\
  size s = Z.of_nat (length es) /\
  forall (i : nat) e, es !! i = Some e ->
    load m (slot s (Z.of_nat i)) (memb_size s) = Some e.

(** The allocator never hands out a block that is still live. *)
Definition alloc_ok (m : mem) : Prop :=
  forall b, (nextblock m <= b)%positive -> blocks m !! b = None.

(** What an operation on a stack may do to the blocks of the model: outside
    the buffer it had and the buffer it has now nothing changes, a buffer
    that moved went to the next fresh block while the old block was released,
    and a live buffer stays live. The fields of the header are carried in the
    record [gstack]; the block that create allocates for the header only
    stands for its storage and never receives them, so [frame] is silent on
    what the source writes into the header object (see [frame_of]). *)
Definition frame (s : gstack) (m : mem) (s' : gstack) (m' : mem) : Prop :=
  (nextblock m <= nextblock m')%positive /\
  off (data s') = off (data s) /\
  (forall b, b <> blk (data s) -> b <> blk (data s') ->
     blocks m' !! b = blocks m !! b) /\
  (blk (data s') = blk (data s) \/
   blk (data s') = nextblock m /\ (nextblock m < nextblock m')%positive /\
   (blk (data s) <> nextblock m -> blocks m' !! blk (data s) = None)) /\
  (is_Some (blocks m !! blk (data s)) -> is_Some (blocks m' !! blk (data s'))).

(** The same for a stack whose header is the object at [hdr], which every
    push and pop writes ([s->size], [s->cap], [s->data]): nothing is said of
    the header's block, only of the blocks that are neither the header nor
    the buffer. *)
Definition frame_of (hdr : ptr) (s : gstack) (m : mem) (s' : gstack) (m' : mem)
  : Prop :=
  (forall b, b <> blk hdr -> b <> blk (data s) -> b <> blk (data s') ->
     blocks m' !! b = blocks m !! b) /\
  (blk (data s') = blk (data s) \/
   blk (data s') = nextblock m /\ (nextblock m < nextblock m')%positive /\
   (blk (data s) <> nextblock m -> blk (data s) <> blk hdr ->
      blocks m' !! blk (data s) = None)) /\
  (is_Some (blocks m !! blk (data s)) -> is_Some (blocks m' !! blk (data s'))).

(** The memory [m] is [m0] plus two live blocks allocated after [m0]: the
    header at [sp] and the buffer of [s]. *)
Definition owned (m0 : mem) (sp : ptr) (s : gstack) (m : mem) : Prop :=
  alloc_ok m /\
  (nextblock m0 <= blk sp)%positive /\ (blk sp < nextblock m)%positive /\
  (nextblock m0 <= blk (data s))%positive /\
  (blk (data s) < nextblock m)%positive /\
  blk sp <> blk (data s) /\ off sp = 0 /\ off (data s) = 0 /\
  is_Some (blocks m !! blk sp) /\ is_Some (blocks m !! blk (data s)) /\
  forall b, b <> blk sp -> b <> blk (data s) -> blocks m !! b = blocks m0 !! b.

(** ** Counting pushes and pops *)

(** What a result says about the element count: a push that returned true
    added one, a pop that returned an element removed one. *)
Definition net (o : op) (r : result) : Z :=
  match o, r with
  | OPush _ _, RBool true => 1
  | OPop _, RPtr (Some _) => -1
  | _, _ => 0
  end.

Fixpoint net_total (os : list op) (rs : list result) : Z :=
  match os, rs with
  | o :: os, r :: rs => net o r + net_total os rs
  | _, _ => 0
  end.

(** Header fields in range, with the capacity at most [top]. *)
Definition bounded (top : Z) (s : gstack) : Prop :=
  1 <= cap s /\ 0 <= size s <= cap s /\ cap s <= top.

(** ** The test programs (TEST_MAIN)

    Both headers end with a [main] that fills a stack with the values of a
    counter and empties it again under assertions. *)

(** Object representation of an unsigned integer in [n] bytes, low byte
    first. *)
Definition byte_of (z : Z) : Byte.byte :=
  default Byte.x00 (Byte.of_N (Z.to_N z)).

Definition byte_val (b : Byte.byte) : Z := Z.of_N (Byte.to_N b).

Fixpoint encode (n : nat) (z : Z) : list memval :=
  match n with
  | O => []
  | S n => Byte (byte_of (z mod 256)) :: encode n (z / 256)
  end.

(** Reading an object back; an indeterminate byte has no value. *)
Fixpoint decode (bs : list memval) : option Z :=
  match bs with
  | [] => Some 0
  | Byte b :: bs =>
      match decode bs with
      | Some z => Some (byte_val b + 256 * z)
      | None => None
      end
  | Undef :: _ => None
  end.

(** [sizeof (size_t)] and [sizeof (int)]. *)
Definition sizeof_size_t : Z := 8.
Definition sizeof_int : Z := 4.

(** A signed [int] from its four bytes. *)
Definition decode_int (bs : list memval) : option Z :=
  match decode bs with
  | Some z => Some (if z <? 2 ^ 31 then z else z - 2 ^ 32)
  | None => None
  end.

(** [*(T * ) p] for a [T] of [n] bytes: undefined through a null pointer or
    outside a live object. *)
Definition deref (p : option ptr) (n : Z) : M (list memval) := fun m =>
  match p with
  | Some p =>
      match load m p n with
      | Some bs => Some (bs, m)
      | None => None
      end
  | None => None
  end.

Definition read_size_t (p : option ptr) : M Z :=
  let* bs := deref p sizeof_size_t in
  match decode bs with
  | Some z => ret z
  | None => undefined
  end.

Definition read_int (p : option ptr) : M Z :=
  let* bs := deref p sizeof_int in
  match decode_int bs with
  | Some z => ret z
  | None => undefined
  end.

(** How a program ends: [return code] from main, or abort() from a failed
    assertion. *)
Inductive outcome : Type :=
  | Exit (code : Z)
  | Aborted.

Definition EXIT_SUCCESS : Z := 0.

Section Programs.

(** The allocator's answer to its k-th request. *)
Variable oracle : nat -> verdict.

(** The answer the next request will get, and the one after it. *)
Definition ask : M verdict := fun m => Some (oracle (length (calls m)), m).
Definition ask_after : M verdict :=
  fun m => Some (oracle (S (length (calls m))), m).

(** gstack.h 277-279: [for (size_t i = 0; i < 200000; ++i)
    assert(gstack_push(stack, &i));] *)
Fixpoint gstack_main_fill (fuel : nat) (i : Z) (s : gstack) : M (option gstack) :=
  if i <? 200000 then
    match fuel with
    | O => undefined
    | S fuel =>
        let* v := ask in
        let* r := gstack_push v s (encode 8 i) in
        if fst r then gstack_main_fill fuel (sz_add i 1) (snd r)
        else ret None
    end
  else ret (Some s).

(** gstack.h 285-288: [for (size_t i = 199999; i < SIZE_MAX; i--)] with the
    two assertions on peek and pop. *)
Fixpoint gstack_main_drain (fuel : nat) (i : Z) (s : gstack) : M (option gstack) :=
  if i <? SIZE_MAX then
    match fuel with
    | O => undefined
    | S fuel =>
        let* x := read_size_t (gstack_peek s) in
        if negb (x =? i) then ret None
        else
          let* v := ask in
          let* r := gstack_pop v s in
          let* y := read_size_t (fst r) in
          if negb (y =? i) then ret None
          else gstack_main_drain fuel (sz_sub i 1) (snd r)
    end
  else ret (Some s).

(** gstack.h 268-294. *)
Definition gstack_main : M outcome :=
  let* v1 := ask in
  let* v2 := ask_after in
  let* stack := gstack_create v1 v2 (SIZE_MAX - 1000) sizeof_size_t in
  if bool_decide (is_Some stack) then ret Aborted
  else
    let* v1 := ask in
    let* v2 := ask_after in
    let* stack := gstack_create v1 v2 10000 sizeof_size_t in
    match stack with
    | None => ret Aborted
    | Some (sp, s) =>
        if gstack_is_full s then ret Aborted
        else
          let* filled := gstack_main_fill (Z.to_nat 200000) 0 s in
          match filled with
          | None => ret Aborted
          | Some s =>
              if gstack_is_empty s then ret Aborted
              else if negb (gstack_size s =? 200000) then ret Aborted
              else
                let* top := read_size_t (gstack_peek s) in
                if negb (top =? 199999) then ret Aborted
                else
                  let* drained := gstack_main_drain (Z.to_nat 200000) 199999 s in
                  match drained with
                  | None => ret Aborted
                  | Some s =>
                      if negb (gstack_is_empty s) then ret Aborted
                      else if negb (gstack_size s =? 0) then ret Aborted
                      else
                        let* _ := gstack_destroy sp s in
                        ret (Exit EXIT_SUCCESS)
                  end
          end
    end.

(** [BUFSIZ], for stack_push. *)
Variable BUFSIZ : Z.

(** stack.h 273-275: [for (int i = 0; i < 150; ++i)
    assert(stack_push(stack, &i));] *)
Fixpoint stack_main_fill (fuel : nat) (i : Z) (s : Stack) : M (option Stack) :=
  if i <? 150 then
    match fuel with
    | O => undefined
    | S fuel =>
        let* v := ask in
        let* r := stack_push BUFSIZ v s (encode 4 i) in
        if fst r then stack_main_fill fuel (i + 1) (snd r)
        else ret None
    end
  else ret (Some s).

(** stack.h 281-284: [for (int i = 149; i >= 0; i--)] with the two
    assertions on peek and pop. *)
Fixpoint stack_main_drain (fuel : nat) (i : Z) (s : Stack) : M (option Stack) :=
  if i >=? 0 then
    match fuel with
    | O => undefined
    | S fuel =>
        let* x := read_int (stack_peek s) in
        if negb (x =? i) then ret None
        else
          let* v := ask in
          let* r := stack_pop v s in
          let* y := read_int (fst r) in
          if negb (y =? i) then ret None
          else stack_main_drain fuel (i - 1) (snd r)
    end
  else ret (Some s).

(** stack.h 264-287. *)
Definition stack_main : M outcome :=
  let* v1 := ask in
  let* v2 := ask_after in
  let* stack := stack_create v1 v2 (SIZE_MAX - 1000) sizeof_size_t in
  if bool_decide (is_Some stack) then ret Aborted
  else
    let* v1 := ask in
    let* v2 := ask_after in
    let* stack := stack_create v1 v2 1000 sizeof_int in
    match stack with
    | None => ret Aborted
    | Some (sp, s) =>
        let* filled := stack_main_fill 150 0 s in
        match filled with
        | None => ret Aborted
        | Some s =>
            if stack_is_empty s then ret Aborted
            else if negb (stack_size s =? 150) then ret Aborted
            else
              let* top := read_int (stack_peek s) in
              if negb (top =? 149) then ret Aborted
              else
                let* drained := stack_main_drain 150 149 s in
                match drained with
                | None => ret Aborted
                | Some s =>
                    let* _ := stack_destroy sp s in
                    ret (Exit EXIT_SUCCESS)
                end
        end
    end.

End Programs.

(** The allocator grants every request. *)
Definition always_grants (oracle : nat -> verdict) : Prop :=
  forall k, oracle k <> Refuse.


(** The values [i], [i + 1], ... ([k] of them). *)
Fixpoint upfrom (i : Z) (k : nat) : list Z :=
  match k with
  | O => []
  | S k => i :: upfrom (i + 1) k
  end.

(** ** Arithmetic of size_t *)

Lemma SIZE_MAX_eq : SIZE_MAX = 18446744073709551615.
Proof. reflexivity. Qed.

Lemma wrap_small z : 0 <= z <= SIZE_MAX -> wrap z = z.
Proof. intros H. unfold wrap. apply Z.mod_small. lia. Qed.

Lemma wrap_range z : 0 <= wrap z <= SIZE_MAX.
Proof.
  unfold wrap. pose proof (Z.mod_pos_bound z (SIZE_MAX + 1)).
  rewrite SIZE_MAX_eq in *. lia.
Qed.

(** [c > SIZE_MAX / e] is the overflow test for [c * e]. *)
Lemma fits_iff c e : 0 < e -> (c <= SIZE_MAX / e <-> c * e <= SIZE_MAX).
Proof.
  intros He. split; intros H.
  - pose proof (Z.mul_div_le SIZE_MAX e He). nia.
  - apply Z.div_le_lower_bound; lia.
Qed.

Lemma gtb_div_false c e : 0 < e -> c * e <= SIZE_MAX -> (c >? SIZE_MAX / e) = false.
Proof.
  intros He H. rewrite Z.gtb_ltb. apply Z.ltb_ge. by apply fits_iff.
Qed.

Lemma gtb_div_true c e : 0 < e -> SIZE_MAX < c * e -> (c >? SIZE_MAX / e) = true.
Proof.
  intros He H. rewrite Z.gtb_ltb. apply Z.ltb_lt.
  destruct (Z.le_gt_cases c (SIZE_MAX / e)) as [Hle|Hgt]; [|lia].
  apply fits_iff in Hle; lia.
Qed.

Lemma half_max : SIZE_MAX / 2 = 9223372036854775807.
Proof. reflexivity. Qed.

(** ** The allocator on a live block *)

Lemma realloc_live v p n m old :
  blocks m !! blk p = Some old -> off p = 0 ->
  realloc v p n m =
  match v with
  | Refuse => Some (None, record_call (CRealloc p n) m)
  | Grant false =>
      Some (Some p, Mem (<[blk p := resized n old]> (blocks m))
                        (nextblock m) (calls m ++ [CRealloc p n]))
  | Grant true =>
      Some (Some (Ptr (nextblock m) 0),
            Mem (<[nextblock m := resized n old]> (delete (blk p) (blocks m)))
                (Pos.succ (nextblock m)) (calls m ++ [CRealloc p n]))
  end.
Proof.
  intros Hb Ho. unfold realloc. rewrite Hb, Ho. simpl.
  destruct v as [|[|]]; reflexivity.
Qed.

Lemma length_resized n old : 0 <= n -> Z.of_nat (length (resized n old)) = n.
Proof. intros Hn. unfold resized. rewrite length_resize. lia. Qed.

Lemma length_fresh_bytes n : 0 <= n -> Z.of_nat (length (fresh_bytes n)) = n.
Proof. intros Hn. unfold fresh_bytes. rewrite length_replicate. lia. Qed.

(** ** Popping an empty stack *)

Lemma pop_empty_shape v s m :
  size s = 0 ->
  gstack_pop v s m = Some ((None, s), m) /\ stack_pop v s m = Some ((None, s), m).
Proof.
  intros H0. unfold gstack_pop, stack_pop, gstack_is_empty, stack_is_empty.
  rewrite H0. simpl. auto.
Qed.

(** C7: on an empty stack ([size = 0]) pop returns the null sentinel and
    leaves the header, hence [size], and the memory exactly as they were,
    in gstack.h and in stack.h. *)
Theorem pop_empty_returns_null (v : verdict) (s : gstack) (m : mem) :
  size s = 0 ->
  gstack_pop v s m = Some ((None, s), m) /\
  stack_pop v s m = Some ((None, s), m) /\
  gstack_size s = 0.
Proof.
  intros H0. unfold gstack_pop, stack_pop, gstack_is_empty, stack_is_empty,
    gstack_size.
  rewrite H0. simpl. auto.
Qed.

Lemma pop_empty_returns_null_witness :
  let s := Hdr (Ptr 1 0) 0 4 8 in
  let m := mem_of (fresh_bytes 32) in
  gstack_pop Refuse s m = Some ((None, s), m) /\
  stack_pop Refuse s m = Some ((None, s), m) /\
  gstack_size s = 0.
Proof. apply (pop_empty_returns_null Refuse (Hdr (Ptr 1 0) 0 4 8)). reflexivity. Defined.

(** ** Creation *)

Lemma stack_create_eq v1 v2 c e : stack_create v1 v2 c e = gstack_create v1 v2 c e.
Proof. reflexivity. Qed.

Lemma create_guard_true c e :
  0 <= c -> 0 <= e -> (c = 0 \/ e = 0 \/ SIZE_MAX < c * e) ->
  (c =? 0) || (e =? 0) || (c >? SIZE_MAX / e) = true.
Proof.
  intros Hc He H.
  destruct (Z.eqb_spec c 0); [done|]. destruct (Z.eqb_spec e 0); [done|].
  simpl. apply gtb_div_true; lia.
Qed.

Lemma create_guard_false c e :
  0 < c -> 0 < e -> c * e <= SIZE_MAX ->
  (c =? 0) || (e =? 0) || (c >? SIZE_MAX / e) = false.
Proof.
  intros Hc He H.
  destruct (Z.eqb_spec c 0); [lia|]. destruct (Z.eqb_spec e 0); [lia|].
  simpl. apply gtb_div_false; lia.
Qed.

Lemma create_granted r1 r2 c e m :
  0 < c -> 0 < e -> c * e <= SIZE_MAX ->
  exists m',
    gstack_create (Grant r1) (Grant r2) c e m
      = Some (Some (Ptr (nextblock m) 0,
                    Hdr (Ptr (Pos.succ (nextblock m)) 0) 0 c e), m') /\
    wf (Hdr (Ptr (Pos.succ (nextblock m)) 0) 0 c e) m' /\
    calls m' = calls m ++ [CMalloc sizeof_hdr; CMalloc (c * e)].
Proof.
  intros Hc He Hfit. unfold gstack_create.
  rewrite create_guard_false by lia.
  unfold bind, ret, malloc, record_call, sz_mul. simpl.
  rewrite wrap_small by lia. rewrite (Z.mul_comm e c).
  eexists. split; [reflexivity|]. split.
  - split; simpl; try lia.
    exists (fresh_bytes (c * e)). split; [apply lookup_insert_eq|].
    apply length_fresh_bytes. lia.
  - simpl. by rewrite <- app_assoc.
Qed.

(** C6: create fails with a null result and without any allocator request
    when the capacity is 0, the element size is 0 or their product exceeds
    SIZE_MAX; a stack it returns has size 0, the requested capacity and a
    buffer of exactly [capacity * element_size] bytes; and it does return one
    whenever the arguments pass the guard and the allocator grants both
    requests. Both headers. *)
Theorem create_spec (v1 v2 : verdict) (c e : Z) (m : mem) :
  0 <= c <= SIZE_MAX -> 0 <= e <= SIZE_MAX ->
  stack_create v1 v2 c e m = gstack_create v1 v2 c e m /\
  ((c = 0 \/ e = 0 \/ SIZE_MAX < c * e) ->
     gstack_create v1 v2 c e m = Some (None, m)) /\
  (forall sp s m', gstack_create v1 v2 c e m = Some (Some (sp, s), m') ->
     size s = 0 /\ cap s = c /\ memb_size s = e /\ off (data s) = 0 /\
     exists bs, blocks m' !! blk (data s) = Some bs /\
                Z.of_nat (length bs) = c * e) /\
  (c <> 0 -> e <> 0 -> c * e <= SIZE_MAX ->
   forall r1 r2, exists sp s m',
     gstack_create (Grant r1) (Grant r2) c e m = Some (Some (sp, s), m')).
Proof.
  intros Hc He. split; [reflexivity|]. split; [|split].
  - intros H. unfold gstack_create.
    rewrite create_guard_true by lia. reflexivity.
  - intros sp s m'. unfold gstack_create.
    destruct ((c =? 0) || (e =? 0) || (c >? SIZE_MAX / e)) eqn:G; [discriminate|].
    apply orb_false_elim in G as [G G3]. apply orb_false_elim in G as [G1 G2].
    apply Z.eqb_neq in G1, G2.
    rewrite Z.gtb_ltb in G3. apply Z.ltb_ge in G3. apply fits_iff in G3; [|lia].
    unfold bind, ret, malloc, free, record_call. simpl.
    destruct v1; [discriminate|]. destruct v2; simpl.
    + rewrite lookup_insert_eq. simpl. discriminate.
    + intros [= <- <- <-]. simpl. repeat split; [].
      exists (fresh_bytes (sz_mul e c)). rewrite lookup_insert_eq.
      split; [reflexivity|]. unfold sz_mul. rewrite wrap_small by lia.
      rewrite length_fresh_bytes; lia.
  - intros Hc0 He0 H r1 r2. unfold gstack_create.
    rewrite create_guard_false by lia.
    unfold bind, ret, malloc. simpl. eauto.
Qed.

Lemma create_spec_witness :
  exists sp s m',
    gstack_create (Grant false) (Grant false) 4 8 (Mem ∅ 1 []) = Some (Some (sp, s), m').
Proof.
  apply (create_spec Refuse Refuse 4 8 (Mem ∅ 1 [])); rewrite ?SIZE_MAX_eq; lia.
Defined.

(** ** Loads and stores inside one block *)

Section Slices.

Context {A : Type}.
Implicit Types l vs rest : list A.
Local Open Scope nat_scope.

Lemma slice_app_before l rest i n o :
  i + n <= o -> i + n <= length l ->
  take n (drop i (take o l ++ rest)) = take n (drop i l).
Proof.
  intros Hin Ho.
  rewrite !take_drop_commute, take_app_le by (rewrite length_take; lia).
  rewrite take_take. do 2 f_equal. lia.
Qed.

Lemma slice_app_at l vs rest o :
  o <= length l ->
  take (length vs) (drop o (take o l ++ vs ++ rest)) = vs.
Proof.
  intros Ho. rewrite drop_app_length' by (rewrite length_take; lia).
  apply take_app_length.
Qed.

Lemma slice_resize_below l (x : A) i n k :
  i + n <= k -> i + n <= length l ->
  take n (drop i (resize k x l)) = take n (drop i l).
Proof.
  intros Hin Hk. rewrite resize_spec. by apply slice_app_before.
Qed.

End Slices.

Lemma length_splice bs o vs :
  0 <= o -> o + Z.of_nat (length vs) <= Z.of_nat (length bs) ->
  length (splice bs o vs) = length bs.
Proof.
  intros Ho Hb. unfold splice.
  rewrite !length_app, length_take, length_drop. lia.
Qed.

Lemma load_lookup m p n bs :
  blocks m !! blk p = Some bs ->
  0 <= off p -> 0 <= n -> off p + n <= Z.of_nat (length bs) ->
  load m p n = Some (take (Z.to_nat n) (drop (Z.to_nat (off p)) bs)).
Proof.
  intros Hb Ho Hn Hl. unfold load. rewrite Hb.
  rewrite (proj2 (Z.leb_le 0 (off p))), (proj2 (Z.leb_le 0 n)),
    (proj2 (Z.leb_le (off p + n) _)) by lia.
  reflexivity.
Qed.

Lemma store_lookup m p vs bs :
  blocks m !! blk p = Some bs ->
  0 <= off p -> off p + Z.of_nat (length vs) <= Z.of_nat (length bs) ->
  store p vs m =
  Some (tt, Mem (<[blk p := splice bs (off p) vs]> (blocks m)) (nextblock m) (calls m)).
Proof.
  intros Hb Ho Hl. unfold store. rewrite Hb.
  rewrite (proj2 (Z.leb_le 0 (off p))), (proj2 (Z.leb_le _ _) Hl) by lia.
  reflexivity.
Qed.

(** ** Pushing *)

(** The common tail of both pushes, on a buffer with room at index [size]. *)
Lemma copy_in_room s elem m bs :
  blocks m !! blk (data s) = Some bs -> off (data s) = 0 ->
  0 <= size s -> 1 <= memb_size s ->
  (size s + 1) * memb_size s <= Z.of_nat (length bs) ->
  (size s + 1) * memb_size s <= SIZE_MAX ->
  memb_size s <= Z.of_nat (length elem) ->
  copy_in s elem m =
  Some ((true, set_size s (size s + 1)),
        Mem (<[blk (data s) :=
                 splice bs (size s * memb_size s) (take (Z.to_nat (memb_size s)) elem)]>
               (blocks m))
            (nextblock m) (calls m)).
Proof.
  intros Hb Ho Hs He Hroom Hmax Hel.
  assert (Hlen : Z.of_nat (length (take (Z.to_nat (memb_size s)) elem)) = memb_size s)
    by (rewrite length_take; lia).
  unfold copy_in, bind, memcpy, ret, sz_mul, sz_add.
  rewrite (proj2 (Z.leb_le 0 (memb_size s))), (proj2 (Z.leb_le _ _) Hel) by lia.
  simpl. rewrite !wrap_small by nia.
  erewrite store_lookup; eauto; simpl; try nia.
  rewrite Ho. simpl.
  destruct (Z.eqb_spec (size s + 1) 0); [lia|]. reflexivity.
Qed.

Lemma geb_false a b : a < b -> (a >=? b) = false.
Proof. intros H. rewrite Z.geb_leb. apply Z.leb_gt. lia. Qed.

Lemma geb_true a b : b <= a -> (a >=? b) = true.
Proof. intros H. rewrite Z.geb_leb. apply Z.leb_le. lia. Qed.

(** A push into a buffer that has room, both headers. *)
Lemma push_with_room (BUFSIZ : Z) (v : verdict) (s : gstack)
    (elem : list memval) (m : mem) :
  wf s m -> size s < cap s -> memb_size s <= Z.of_nat (length elem) ->
  exists m',
    gstack_push v s elem m = Some ((true, set_size s (size s + 1)), m') /\
    stack_push BUFSIZ v s elem m = Some ((true, set_size s (size s + 1)), m') /\
    wf (set_size s (size s + 1)) m' /\
    calls m' = calls m /\
    nextblock m' = nextblock m /\
    (forall b, b <> blk (data s) -> blocks m' !! b = blocks m !! b) /\
    load m' (slot s (size s)) (memb_size s)
      = Some (take (Z.to_nat (memb_size s)) elem) /\
    (forall i, 0 <= i < size s ->
       load m' (slot s i) (memb_size s) = load m (slot s i) (memb_size s)).
Proof.
  intros [Hmemb Hcap Hsz Hbytes Hbase (bs & Hbs & Hlen)] Hfull Hel.
  assert (Hroom : (size s + 1) * memb_size s <= cap s * memb_size s) by nia.
  assert (Hlt : Z.of_nat (length (take (Z.to_nat (memb_size s)) elem)) = memb_size s)
    by (rewrite length_take; lia).
  eexists. unfold gstack_push, stack_push.
  rewrite geb_false by lia.
  rewrite (copy_in_room s elem m bs) by (auto; lia).
  split; [reflexivity|]. split; [reflexivity|]. simpl.
  split; [|split; [reflexivity|split; [reflexivity|split; [|split]]]].
  - split; simpl; try lia.
    eexists. split; [apply lookup_insert_eq|]. rewrite length_splice; nia.
  - intros b Hne. by rewrite lookup_insert_ne.
  - erewrite load_lookup; [|simpl; apply lookup_insert_eq|simpl; rewrite ?length_splice; nia..].
    simpl. rewrite Hbase. simpl. f_equal. unfold splice.
    replace (Z.to_nat (memb_size s))
      with (length (take (Z.to_nat (memb_size s)) elem)) at 1
      by (rewrite length_take; lia).
    apply slice_app_at. lia.
  - intros i Hi.
    erewrite load_lookup; [|simpl; apply lookup_insert_eq|simpl; rewrite ?length_splice; nia..].
    erewrite (load_lookup m); [|simpl; apply Hbs|simpl; nia..].
    simpl. rewrite Hbase. simpl. f_equal. unfold splice.
    apply slice_app_before; nia.
Qed.

Lemma three_of_8_wf : wf three_of_8 (mem_of buf8).
Proof.
  split; simpl; rewrite ?SIZE_MAX_eq; try lia.
  exists buf8. split; reflexivity.
Qed.

(** *** Growth: the part after the new capacity is chosen *)

Lemma grow_tail_overflow v s elem m :
  1 <= memb_size s -> SIZE_MAX < cap s * memb_size s ->
  grow_tail v s elem m = Some ((false, s), m).
Proof.
  intros He Hov. unfold grow_tail.
  destruct (Z.eqb_spec (memb_size s) 0); [lia|].
  rewrite gtb_div_true by lia. reflexivity.
Qed.

Lemma grow_tail_refused s elem m bs :
  blocks m !! blk (data s) = Some bs -> off (data s) = 0 ->
  1 <= memb_size s -> 0 <= cap s -> cap s * memb_size s <= SIZE_MAX ->
  grow_tail Refuse s elem m =
  Some ((false, s), record_call (CRealloc (data s) (cap s * memb_size s)) m).
Proof.
  intros Hb Ho He Hc Hfit. unfold grow_tail, bind.
  destruct (Z.eqb_spec (memb_size s) 0); [lia|].
  rewrite gtb_div_false by lia.
  erewrite realloc_live by eauto. unfold sz_mul. rewrite wrap_small by nia.
  reflexivity.
Qed.

Lemma grow_tail_granted r s elem m bs :
  blocks m !! blk (data s) = Some bs -> off (data s) = 0 ->
  1 <= memb_size s -> 0 <= size s < cap s ->
  cap s * memb_size s <= SIZE_MAX ->
  memb_size s <= Z.of_nat (length elem) ->
  exists s' m',
    grow_tail (Grant r) s elem m = Some ((true, s'), m') /\
    wf s' m' /\
    size s' = size s + 1 /\ cap s' = cap s /\ memb_size s' = memb_size s /\
    calls m' = calls m ++ [CRealloc (data s) (cap s * memb_size s)] /\
    (r = false -> data s' = data s) /\
    load m' (slot s' (size s)) (memb_size s)
      = Some (take (Z.to_nat (memb_size s)) elem) /\
    (forall i, 0 <= i < size s ->
       (i + 1) * memb_size s <= Z.of_nat (length bs) ->
       load m' (slot s' i) (memb_size s) = load m (slot s i) (memb_size s)).
Proof.
  intros Hb Ho He Hsz Hfit Hel.
  set (n := cap s * memb_size s).
  set (vs := take (Z.to_nat (memb_size s)) elem).
  assert (Hvs : Z.of_nat (length vs) = memb_size s)
    by (unfold vs; rewrite length_take; lia).
  assert (Hn : (size s + 1) * memb_size s <= n) by (unfold n; nia).
  assert (Hrl : Z.of_nat (length (resized n bs)) = n)
    by (apply length_resized; nia).
  set (p' := if r then Ptr (nextblock m) 0 else data s).
  set (m1 := if r
             then Mem (<[nextblock m := resized n bs]> (delete (blk (data s)) (blocks m)))
                      (Pos.succ (nextblock m)) (calls m ++ [CRealloc (data s) n])
             else Mem (<[blk (data s) := resized n bs]> (blocks m))
                      (nextblock m) (calls m ++ [CRealloc (data s) n])).
  assert (Hp' : off p' = 0) by (unfold p'; destruct r; auto).
  assert (Hm1 : blocks m1 !! blk p' = Some (resized n bs))
    by (unfold m1, p'; destruct r; simpl; apply lookup_insert_eq).
  assert (Hre : realloc (Grant r) (data s) n m = Some (Some p', m1)).
  { erewrite realloc_live by eauto. unfold p', m1. destruct r; reflexivity. }
  exists (Hdr p' (size s + 1) (cap s) (memb_size s)).
  exists (Mem (<[blk p' := splice (resized n bs) (size s * memb_size s) vs]> (blocks m1))
              (nextblock m1) (calls m1)).
  assert (Hsl : length (splice (resized n bs) (size s * memb_size s) vs)
                = length (resized n bs)) by (apply length_splice; nia).
  split; [|split; [|repeat split]].
  - unfold grow_tail, bind.
    destruct (Z.eqb_spec (memb_size s) 0); [lia|].
    rewrite gtb_div_false by lia.
    unfold sz_mul. rewrite wrap_small by (fold n; nia). fold n. rewrite Hre.
    rewrite (copy_in_room (set_data s p') elem m1 (resized n bs));
      simpl; auto; try lia; nia.
  - split; simpl; try lia.
    exists (splice (resized n bs) (size s * memb_size s) vs).
    split; [apply lookup_insert_eq|]. rewrite Hsl. exact Hrl.
  - unfold m1. destruct r; reflexivity.
  - intros ->. reflexivity.
  - erewrite load_lookup;
      [|simpl; apply lookup_insert_eq|simpl; rewrite ?Hsl, ?Hp'; nia..].
    simpl. rewrite Hp'. simpl. f_equal. unfold splice.
    replace (Z.to_nat (memb_size s)) with (length vs) by lia.
    apply slice_app_at. lia.
  - intros i Hi Hold.
    erewrite load_lookup;
      [|simpl; apply lookup_insert_eq|simpl; rewrite ?Hsl, ?Hp'; nia..].
    erewrite (load_lookup m); [|apply Hb|simpl; rewrite ?Ho; nia..].
    simpl. rewrite Hp', Ho. simpl. f_equal. unfold splice.
    rewrite slice_app_before by nia.
    unfold resized. apply slice_resize_below; nia.
Qed.

(** *** Growth: how each push chooses the new capacity *)

Lemma gstack_push_at_ceiling v s elem m :
  cap s <= size s -> SIZE_MAX / 2 < cap s ->
  gstack_push v s elem m = Some ((false, s), m).
Proof.
  intros Hfull Hhi. unfold gstack_push.
  rewrite geb_true by lia.
  rewrite (proj2 (Z.gtb_gt _ _)) by lia. reflexivity.
Qed.

Lemma gstack_push_doubles v s elem :
  cap s <= size s -> 0 <= cap s <= SIZE_MAX / 2 ->
  gstack_push v s elem = grow_tail v (set_cap s (2 * cap s)) elem.
Proof.
  intros Hfull Hlo. unfold gstack_push.
  rewrite geb_true by lia.
  rewrite Z.gtb_ltb, (proj2 (Z.ltb_ge _ _)) by lia.
  unfold sz_mul. rewrite wrap_small by (rewrite half_max in Hlo; rewrite SIZE_MAX_eq; lia).
  rewrite (Z.mul_comm (cap s) 2). reflexivity.
Qed.

Lemma stack_push_doubles BUFSIZ v s elem :
  cap s <= size s -> 0 <= cap s <= SIZE_MAX / 2 ->
  stack_push BUFSIZ v s elem = grow_tail v (set_cap s (2 * cap s)) elem.
Proof.
  intros Hfull Hlo. unfold stack_push.
  rewrite geb_true by lia.
  rewrite Z.gtb_ltb, (proj2 (Z.ltb_ge _ _)) by lia.
  unfold sz_mul. rewrite wrap_small by (rewrite half_max in Hlo; rewrite SIZE_MAX_eq; lia).
  rewrite (Z.mul_comm (cap s) 2). reflexivity.
Qed.

Lemma stack_push_linear BUFSIZ v s elem :
  cap s <= size s -> SIZE_MAX / 2 < cap s -> 0 <= BUFSIZ ->
  cap s + BUFSIZ <= SIZE_MAX ->
  stack_push BUFSIZ v s elem = grow_tail v (set_cap s (cap s + BUFSIZ)) elem.
Proof.
  intros Hfull Hhi HB Hfit. unfold stack_push.
  rewrite geb_true by lia.
  rewrite (proj2 (Z.gtb_gt _ _)) by lia.
  unfold sz_add. rewrite half_max in Hhi. rewrite wrap_small by lia.
  rewrite (proj2 (Z.ltb_ge _ _)) by lia. reflexivity.
Qed.

Lemma stack_push_at_ceiling BUFSIZ v s elem m :
  cap s <= size s -> SIZE_MAX / 2 < cap s <= SIZE_MAX ->
  0 < BUFSIZ <= SIZE_MAX -> SIZE_MAX < cap s + BUFSIZ ->
  stack_push BUFSIZ v s elem m = Some ((false, s), m).
Proof.
  intros Hfull Hhi HB Hov. unfold stack_push.
  rewrite geb_true by lia.
  rewrite (proj2 (Z.gtb_gt _ _)) by lia.
  assert (Hw : sz_add (cap s) BUFSIZ = cap s + BUFSIZ - (SIZE_MAX + 1)).
  { unfold sz_add, wrap. symmetry.
    apply (Z.mod_unique _ _ 1); rewrite SIZE_MAX_eq in *; lia. }
  rewrite Hw, (proj2 (Z.ltb_lt _ _)) by lia. reflexivity.
Qed.

(** A full valid stack, seen after the header took the grown capacity [c]. *)
Lemma grown_granted r s c elem m :
  wf s m -> size s = cap s -> cap s < c -> c * memb_size s <= SIZE_MAX ->
  memb_size s <= Z.of_nat (length elem) ->
  exists s' m',
    grow_tail (Grant r) (set_cap s c) elem m = Some ((true, s'), m') /\
    wf s' m' /\ cap s' = c /\ size s' = size s + 1 /\
    memb_size s' = memb_size s /\
    calls m' = calls m ++ [CRealloc (data s) (c * memb_size s)] /\
    load m' (slot s' (size s)) (memb_size s)
      = Some (take (Z.to_nat (memb_size s)) elem) /\
    (forall i, 0 <= i < size s ->
       load m' (slot s' i) (memb_size s) = load m (slot s i) (memb_size s)).
Proof.
  intros [Hmemb Hcap Hsz Hbytes Hbase (bs & Hbs & Hlen)] Hfull Hc Hfit Hel.
  destruct (grow_tail_granted r (set_cap s c) elem m bs)
    as (s' & m' & Hrun & Hwf & Hs' & Hc' & He' & Hcalls & _ & Hnew & Hold);
    simpl; auto; try lia.
  exists s', m'. repeat split; try assumption; try apply Hwf.
  intros i Hi. apply Hold; simpl; [lia|]. rewrite Hlen. nia.
Qed.

(** C2 (amended): on a full valid stack both pushes double the capacity when
    it is at most SIZE_MAX / 2. Above that, stack.h adds BUFSIZ and refuses
    at this step only when [cap + BUFSIZ] wraps, while gstack.h has no linear
    step and refuses. A push that chose a new capacity fails only when the
    new capacity times the element size exceeds SIZE_MAX or the allocator
    refuses the reallocation. *)
Theorem push_growth_policy (BUFSIZ : Z) (v : verdict) (s : gstack)
    (elem : list memval) (m : mem) :
  wf s m -> size s = cap s -> memb_size s <= Z.of_nat (length elem) ->
  0 < BUFSIZ <= SIZE_MAX ->
  (cap s <= SIZE_MAX / 2 ->
     (2 * cap s * memb_size s <= SIZE_MAX ->
      forall r, exists s' m',
        gstack_push (Grant r) s elem m = Some ((true, s'), m') /\
        stack_push BUFSIZ (Grant r) s elem m = Some ((true, s'), m') /\
        cap s' = 2 * cap s /\ size s' = size s + 1) /\
     (forall s' m',
        gstack_push v s elem m = Some ((false, s'), m') \/
        stack_push BUFSIZ v s elem m = Some ((false, s'), m') ->
        SIZE_MAX < 2 * cap s * memb_size s \/ v = Refuse)) /\
  (SIZE_MAX / 2 < cap s ->
     gstack_push v s elem m = Some ((false, s), m) /\
     (cap s + BUFSIZ <= SIZE_MAX ->
      forall r, exists s' m',
        stack_push BUFSIZ (Grant r) s elem m = Some ((true, s'), m') /\
        cap s' = cap s + BUFSIZ /\ size s' = size s + 1) /\
     (SIZE_MAX < cap s + BUFSIZ ->
      stack_push BUFSIZ v s elem m = Some ((false, s), m)) /\
     (forall s' m',
        stack_push BUFSIZ v s elem m = Some ((false, s'), m') ->
        SIZE_MAX < cap s + BUFSIZ \/ v = Refuse)).
Proof.
  intros Hwf Hfull Hel HB.
  pose proof (wf_memb _ _ Hwf) as Hmemb. pose proof (wf_cap _ _ Hwf) as Hcap.
  pose proof (wf_bytes _ _ Hwf) as Hbytes.
  split.
  - intros Hlo.
    assert (Hdbl : 2 * cap s * memb_size s <= SIZE_MAX ->
      forall r, exists s' m',
        gstack_push (Grant r) s elem m = Some ((true, s'), m') /\
        stack_push BUFSIZ (Grant r) s elem m = Some ((true, s'), m') /\
        cap s' = 2 * cap s /\ size s' = size s + 1).
    { intros Hfit r.
      destruct (grown_granted r s (2 * cap s) elem m)
        as (s' & m' & Hrun & _ & Hc' & Hs' & _); auto; try lia.
      exists s', m'.
      rewrite gstack_push_doubles, stack_push_doubles by lia. auto. }
    split; [exact Hdbl|].
    intros s' m' Hfail.
    destruct v as [|r]; [by right|]. left.
    destruct (Z.lt_ge_cases SIZE_MAX (2 * cap s * memb_size s)) as [|Hfit]; [assumption|].
    destruct (Hdbl Hfit r) as (s1 & m1 & Hg & Hs & _).
    rewrite Hg, Hs in Hfail. destruct Hfail; discriminate.
  - intros Hhi.
    assert (He1 : memb_size s = 1) by (rewrite half_max in Hhi; rewrite SIZE_MAX_eq in *; nia).
    assert (Hlin : cap s + BUFSIZ <= SIZE_MAX ->
      forall r, exists s' m',
        stack_push BUFSIZ (Grant r) s elem m = Some ((true, s'), m') /\
        cap s' = cap s + BUFSIZ /\ size s' = size s + 1).
    { intros Hfit r.
      destruct (grown_granted r s (cap s + BUFSIZ) elem m)
        as (s' & m' & Hrun & _ & Hc' & Hs' & _); auto; try lia.
      exists s', m'. rewrite stack_push_linear by lia. auto. }
    split; [apply gstack_push_at_ceiling; lia|].
    split; [exact Hlin|].
    split; [intros Hov; apply stack_push_at_ceiling; lia|].
    intros s' m' Hfail.
    destruct v as [|r]; [by right|]. left.
    destruct (Z.lt_ge_cases SIZE_MAX (cap s + BUFSIZ)) as [|Hfit]; [assumption|].
    destruct (Hlin Hfit r) as (s1 & m1 & Hs & _).
    rewrite Hs in Hfail. discriminate.
Qed.

(** ** Popping *)

Lemma shrink_bounds s n :
  0 < n <= cap s / 4 -> 1 <= memb_size s -> cap s * memb_size s <= SIZE_MAX ->
  n + 1 <= cap s / 2 /\ 0 <= cap s / 2 * memb_size s <= cap s * memb_size s /\
  (n + 1) * memb_size s <= cap s / 2 * memb_size s.
Proof.
  intros Hn He Hfit.
  assert (4 * (cap s / 4) <= cap s) by (apply Z.mul_div_le; lia).
  assert (2 * (cap s / 2) <= cap s) by (apply Z.mul_div_le; lia).
  assert (cap s < 2 * (cap s / 2) + 2).
  { pose proof (Z.mod_pos_bound (cap s) 2). pose proof (Z.div_mod (cap s) 2). lia. }
  assert (n + 1 <= cap s / 2) by lia.
  repeat split; nia.
Qed.

(** Both pops on a non-empty valid stack, with the arithmetic resolved. *)
Lemma stack_pop_nonempty v s m :
  wf s m -> 0 < size s ->
  let n := size s - 1 in
  stack_pop v s m =
  if (0 <? n) && (n <=? cap s / 4) then
    match realloc v (data s) (cap s / 2 * memb_size s) m with
    | Some (Some p, m') =>
        Some ((Some (slot s n), Hdr p n (cap s / 2) (memb_size s)), m')
    | Some (None, m') => Some ((Some (slot s n), set_size s n), m')
    | None => None
    end
  else Some ((Some (slot s n), set_size s n), m).
Proof.
  intros [Hmemb Hcap Hsz Hbytes Hbase _] Hpos n.
  assert (Hn : 0 <= n < cap s) by (unfold n; lia).
  assert (Hcm : cap s <= SIZE_MAX) by nia.
  assert (Hnb : 0 <= n * memb_size s <= SIZE_MAX) by nia.
  unfold stack_pop, stack_is_empty, bind, ret.
  destruct (Z.eqb_spec (size s) 0); [lia|].
  unfold sz_sub. rewrite wrap_small by lia. fold n. simpl.
  unfold sz_mul, slot. rewrite (wrap_small (n * _)) by lia.
  destruct (Z.eqb_spec n 0) as [Hn0|Hn0]; simpl.
  - rewrite Hn0. reflexivity.
  - rewrite (proj2 (Z.ltb_lt 0 n)) by lia. simpl.
    destruct (Z.leb_spec n (cap s / 4)); [|reflexivity].
    destruct (shrink_bounds s n) as (_ & ? & _); try lia.
    rewrite wrap_small by lia.
    destruct (realloc _ _ _ _) as [[[p|] m']|]; reflexivity.
Qed.

Lemma gstack_pop_nonempty v s m :
  wf s m -> 0 < size s ->
  let n := size s - 1 in
  gstack_pop v s m =
  if (0 <? n) && (n <=? cap s / 4) then
    match realloc v (data s) (cap s / 2 * memb_size s) m with
    | Some (Some p, m') =>
        Some ((Some (ptr_add p (n * memb_size s)),
               Hdr p n (cap s / 2) (memb_size s)), m')
    | Some (None, m') =>
        Some ((Some (slot s n),
               Hdr (data s) n
                   (if negb (cap s mod 2 =? 0) then sz_add (cap s) 1 else cap s)
                   (memb_size s)), m')
    | None => None
    end
  else Some ((Some (slot s n), set_size s n), m).
Proof.
  intros [Hmemb Hcap Hsz Hbytes Hbase _] Hpos n.
  assert (Hn : 0 <= n < cap s) by (unfold n; lia).
  assert (Hcm : cap s <= SIZE_MAX) by nia.
  assert (Hnb : 0 <= n * memb_size s <= SIZE_MAX) by nia.
  unfold gstack_pop, gstack_is_empty, bind, ret.
  destruct (Z.eqb_spec (size s) 0); [lia|].
  unfold sz_sub. rewrite wrap_small by lia. fold n. simpl.
  unfold slot.
  destruct (Z.eqb_spec n 0) as [Hn0|Hn0]; simpl.
  - rewrite Hn0. unfold sz_mul. rewrite wrap_small by (rewrite SIZE_MAX_eq; lia).
    reflexivity.
  - rewrite (proj2 (Z.ltb_lt 0 n)) by lia. simpl.
    destruct (Z.leb_spec n (cap s / 4)).
    + destruct (shrink_bounds s n) as (_ & ? & _); try lia.
      destruct (negb (cap s mod 2 =? 0)); simpl;
        unfold sz_mul at 1;
        rewrite (Z.mul_comm (memb_size s)), wrap_small by lia;
        destruct (realloc _ _ _ _) as [[[p|] m']|]; simpl;
        unfold sz_mul; rewrite ?wrap_small by lia; reflexivity.
    + simpl. unfold sz_mul. rewrite wrap_small by lia. reflexivity.
Qed.

Lemma load_same_blocks m m' p n :
  blocks m' = blocks m -> load m' p n = load m p n.
Proof. intros H. unfold load. by rewrite H. Qed.

Lemma shrink_test_true n c : 0 < n <= c / 4 -> (0 <? n) && (n <=? c / 4) = true.
Proof.
  intros H. rewrite (proj2 (Z.ltb_lt 0 n)), (proj2 (Z.leb_le n _)) by lia. reflexivity.
Qed.

Lemma shrink_test_false n c :
  0 <= n -> n = 0 \/ c / 4 < n -> (0 <? n) && (n <=? c / 4) = false.
Proof.
  intros Hn [->|H]; [reflexivity|].
  rewrite (proj2 (Z.leb_gt n _)) by lia. apply andb_false_r.
Qed.

Lemma pops_no_shrink v s m :
  wf s m -> 0 < size s ->
  let n := size s - 1 in
  n = 0 \/ cap s / 4 < n ->
  gstack_pop v s m = Some ((Some (slot s n), set_size s n), m) /\
  stack_pop v s m = Some ((Some (slot s n), set_size s n), m).
Proof.
  intros Hwf Hpos n Hno.
  rewrite gstack_pop_nonempty, stack_pop_nonempty by assumption.
  fold n. rewrite shrink_test_false by (unfold n; lia). auto.
Qed.

Lemma pops_shrink_refused s m :
  wf s m ->
  let n := size s - 1 in
  0 < n <= cap s / 4 ->
  let m' := record_call (CRealloc (data s) (cap s / 2 * memb_size s)) m in
  gstack_pop Refuse s m =
    Some ((Some (slot s n),
           Hdr (data s) n
               (if negb (cap s mod 2 =? 0) then sz_add (cap s) 1 else cap s)
               (memb_size s)), m') /\
  stack_pop Refuse s m = Some ((Some (slot s n), set_size s n), m').
Proof.
  intros Hwf n Hn m'.
  destruct (wf_buf _ _ Hwf) as (bs & Hbs & _).
  rewrite gstack_pop_nonempty, stack_pop_nonempty by (assumption || lia).
  fold n. rewrite shrink_test_true by assumption.
  erewrite realloc_live by (eauto using wf_base). auto.
Qed.

Lemma pops_shrink_granted r s m :
  wf s m ->
  let n := size s - 1 in
  0 < n <= cap s / 4 ->
  exists p m',
    gstack_pop (Grant r) s m =
      Some ((Some (ptr_add p (n * memb_size s)),
             Hdr p n (cap s / 2) (memb_size s)), m') /\
    stack_pop (Grant r) s m =
      Some ((Some (slot s n), Hdr p n (cap s / 2) (memb_size s)), m') /\
    wf (Hdr p n (cap s / 2) (memb_size s)) m' /\
    calls m' = calls m ++ [CRealloc (data s) (cap s / 2 * memb_size s)] /\
    p = (if r then Ptr (nextblock m) 0 else data s) /\
    (forall i, 0 <= i <= n ->
       load m' (ptr_add p (i * memb_size s)) (memb_size s)
       = load m (slot s i) (memb_size s)).
Proof.
  intros Hwf n Hn.
  destruct Hwf as [Hmemb Hcap Hsz Hbytes Hbase (bs & Hbs & Hlen)].
  destruct (shrink_bounds s n) as (Hn1 & Hhalf & Hroom); try lia.
  set (k := cap s / 2 * memb_size s) in *.
  set (p := if r then Ptr (nextblock m) 0 else data s).
  set (m' := if r
             then Mem (<[nextblock m := resized k bs]> (delete (blk (data s)) (blocks m)))
                      (Pos.succ (nextblock m)) (calls m ++ [CRealloc (data s) k])
             else Mem (<[blk (data s) := resized k bs]> (blocks m))
                      (nextblock m) (calls m ++ [CRealloc (data s) k])).
  assert (Hp : off p = 0) by (unfold p; destruct r; auto).
  assert (Hm' : blocks m' !! blk p = Some (resized k bs))
    by (unfold m', p; destruct r; simpl; apply lookup_insert_eq).
  assert (Hre : realloc (Grant r) (data s) k m = Some (Some p, m')).
  { erewrite realloc_live by eauto. unfold p, m'. destruct r; reflexivity. }
  assert (Hrl : Z.of_nat (length (resized k bs)) = k) by (apply length_resized; lia).
  exists p, m'.
  rewrite gstack_pop_nonempty, stack_pop_nonempty
    by (try split; eauto; lia).
  fold n. rewrite shrink_test_true by assumption. fold k. rewrite Hre.
  split; [reflexivity|]. split; [reflexivity|]. split; [|split; [|split]].
  - split; simpl; try lia. eauto.
  - unfold m'. destruct r; reflexivity.
  - reflexivity.
  - intros i Hi.
    erewrite load_lookup; [|apply Hm'|simpl; rewrite ?Hp, ?Hrl; nia..].
    erewrite (load_lookup m); [|apply Hbs|simpl; rewrite ?Hbase; nia..].
    simpl. rewrite Hp, Hbase. f_equal.
    unfold resized. apply slice_resize_below; nia.
Qed.

(** C3 (amended): on a non-empty valid stack pop decrements [size] and asks
    for a smaller buffer exactly when the new size is nonzero and at most
    [cap / 4]; when that request is granted the capacity becomes [cap / 2],
    integer division, in stack.h for every capacity and in gstack.h for an
    even one; when the new size is 0 or above [cap / 4] nothing is requested
    and header and memory are otherwise unchanged. *)
Theorem pop_shrink_policy (v : verdict) (s : gstack) (m : mem) :
  wf s m -> 0 < size s ->
  let n := size s - 1 in
  exists pg ps sg ss mg ms,
    gstack_pop v s m = Some ((Some pg, sg), mg) /\
    stack_pop v s m = Some ((Some ps, ss), ms) /\
    size sg = n /\ size ss = n /\
    (0 < n <= cap s / 4 ->
       calls mg = calls m ++ [CRealloc (data s) (cap s / 2 * memb_size s)] /\
       calls ms = calls m ++ [CRealloc (data s) (cap s / 2 * memb_size s)] /\
       (v <> Refuse ->
          cap ss = cap s / 2 /\ (cap s mod 2 = 0 -> cap sg = cap s / 2))) /\
    (n = 0 \/ cap s / 4 < n ->
       mg = m /\ ms = m /\ cap sg = cap s /\ cap ss = cap s).
Proof.
  intros Hwf Hpos n.
  destruct (Z.eq_dec n 0) as [Hn0|Hn0];
    [|destruct (Z.le_gt_cases n (cap s / 4)) as [Hq|Hq]].
  - destruct (pops_no_shrink v s m Hwf Hpos) as [Hg Hs]; [by left|].
    fold n in Hg, Hs. do 6 eexists. split; [exact Hg|]. split; [exact Hs|].
    simpl. repeat split; auto; lia.
  - assert (Hn : 0 < n <= cap s / 4) by (unfold n in *; lia).
    destruct v as [|r].
    + destruct (pops_shrink_refused s m Hwf Hn) as [Hg Hs].
      do 6 eexists. split; [exact Hg|]. split; [exact Hs|].
      simpl. repeat split; auto; try lia; try congruence.
    + destruct (pops_shrink_granted r s m Hwf Hn)
        as (p & m' & Hg & Hs & _ & Hcalls & _).
      do 6 eexists. split; [exact Hg|]. split; [exact Hs|].
      simpl. repeat split; auto; lia.
  - destruct (pops_no_shrink v s m Hwf Hpos) as [Hg Hs]; [right; fold n; lia|].
    fold n in Hg, Hs. do 6 eexists. split; [exact Hg|]. split; [exact Hs|].
    simpl. repeat split; auto; lia.
Qed.

Lemma pop_shrink_policy_witness :
  exists pg ps sg ss mg ms,
    gstack_pop (Grant false) three_of_8 (mem_of buf8) = Some ((Some pg, sg), mg) /\
    stack_pop (Grant false) three_of_8 (mem_of buf8) = Some ((Some ps, ss), ms) /\
    size sg = 2 /\ size ss = 2.
Proof.
  destruct (pop_shrink_policy (Grant false) three_of_8 (mem_of buf8))
    as (pg & ps & sg & ss & mg & ms & Hg & Hs & Hsg & Hss & _).
  - exact three_of_8_wf.
  - simpl; lia.
  - exists pg, ps, sg, ss, mg, ms. auto.
Defined.

(** Against C3 as specified: stack.h halves a capacity of 9 to 4, where rounding
    up would give 5. *)
Lemma shrink_of_odd_capacity_rounds_down :
  exists p s' m',
    stack_pop (Grant false) three_of_9 (mem_of buf9) = Some ((Some p, s'), m') /\
    cap s' = 4 /\
    cap s' <> spec_shrunk_cap (cap three_of_9).
Proof.
  do 3 eexists. split; [vm_compute; reflexivity|].
  split; [reflexivity|]. vm_compute. discriminate.
Qed.

(** ** Failures of push *)

Lemma full4_wf : wf full4 (mem_of buf4).
Proof.
  split; simpl; rewrite ?SIZE_MAX_eq; try lia.
  exists buf4. split; reflexivity.
Qed.

Lemma push_growth_policy_witness :
  exists s' m',
    gstack_push (Grant false) full4 [b2] (mem_of buf4) = Some ((true, s'), m') /\
    stack_push 8192 (Grant false) full4 [b2] (mem_of buf4) = Some ((true, s'), m') /\
    cap s' = 2 * cap full4 /\ size s' = size full4 + 1.
Proof.
  destruct (push_growth_policy 8192 Refuse full4 [b2] (mem_of buf4)) as [Hlow _].
  - exact full4_wf.
  - reflexivity.
  - simpl; lia.
  - rewrite SIZE_MAX_eq; lia.
  - apply Hlow; simpl; rewrite ?half_max, ?SIZE_MAX_eq; lia.
Defined.

Lemma at_ceiling_wf : wf at_ceiling huge_mem.
Proof.
  unfold at_ceiling, huge_mem, mem_of.
  split; cbn [memb_size cap size data off blk blocks]; rewrite ?SIZE_MAX_eq; try lia.
  exists (fresh_bytes (2 ^ 63)). split; [apply lookup_singleton_eq|].
  rewrite length_fresh_bytes; lia.
Qed.

(** Against C2 as specified: a full gstack.h stack whose capacity is above
    SIZE_MAX / 2 is refused by push although adding any increment below 2^63
    to its capacity would not overflow. *)
Lemma gstack_push_has_no_linear_growth :
  wf at_ceiling huge_mem /\
  size at_ceiling = cap at_ceiling /\
  gstack_push (Grant false) at_ceiling [b1] huge_mem
    = Some ((false, at_ceiling), huge_mem) /\
  (forall k, 0 < k < 2 ^ 63 -> cap at_ceiling + k <= SIZE_MAX).
Proof.
  split; [exact at_ceiling_wf|]. split; [reflexivity|]. split.
  - apply gstack_push_at_ceiling; unfold at_ceiling;
      cbn [cap size]; rewrite ?half_max; lia.
  - intros k Hk. unfold at_ceiling. cbn [cap]. rewrite SIZE_MAX_eq. lia.
Qed.

(** The linear step of stack.h on the same stack: the capacity grows by
    BUFSIZ (8192 here). *)
Lemma stack_push_grows_linearly :
  exists s' m',
    stack_push 8192 (Grant false) at_ceiling [b1] huge_mem = Some ((true, s'), m') /\
    cap s' = 2 ^ 63 + 8192 /\ size s' = 2 ^ 63 + 1 /\ wf s' m'.
Proof.
  destruct (grown_granted false at_ceiling (2 ^ 63 + 8192) [b1] huge_mem)
    as (s' & m' & Hrun & Hwf & Hc & Hs & _).
  - exact at_ceiling_wf.
  - reflexivity.
  - unfold at_ceiling; cbn [cap]; lia.
  - unfold at_ceiling; cbn [memb_size]; rewrite SIZE_MAX_eq; lia.
  - unfold at_ceiling; cbn [memb_size length]; lia.
  - exists s', m'.
    rewrite stack_push_linear
      by (unfold at_ceiling; cbn [cap size]; rewrite ?half_max, ?SIZE_MAX_eq; lia).
    auto.
Qed.

(** C1: the code departs from the specification. A push that fails after the capacity was
    chosen returns false with the doubled capacity left in the header while
    the buffer keeps its four bytes, in gstack.h and in stack.h; the push
    after it then finds room by the header and writes past the buffer. *)
Theorem failed_push_keeps_grown_capacity :
  let m' := record_call (CRealloc (Ptr 1 0) 8) (mem_of buf4) in
  gstack_push Refuse full4 [b2] (mem_of buf4) = Some ((false, set_cap full4 8), m') /\
  stack_push 8192 Refuse full4 [b2] (mem_of buf4) = Some ((false, set_cap full4 8), m') /\
  cap (set_cap full4 8) <> cap full4 /\
  blocks m' !! 1%positive = Some buf4 /\
  gstack_push Refuse (set_cap full4 8) [b2] m' = None /\
  stack_push 8192 Refuse (set_cap full4 8) [b2] m' = None.
Proof.
  repeat split; try (vm_compute; reflexivity). vm_compute. discriminate.
Qed.

(** The same in general: on a full valid stack in the doubling regime, a
    refused reallocation or a tripped overflow guard leaves [2 * cap] in the
    header and the buffer as it was. *)
Lemma push_failure_after_growth BUFSIZ v s elem m :
  wf s m -> size s = cap s -> cap s <= SIZE_MAX / 2 ->
  v = Refuse \/ SIZE_MAX < 2 * cap s * memb_size s ->
  exists m',
    gstack_push v s elem m = Some ((false, set_cap s (2 * cap s)), m') /\
    stack_push BUFSIZ v s elem m = Some ((false, set_cap s (2 * cap s)), m') /\
    blocks m' = blocks m.
Proof.
  intros [Hmemb Hcap Hsz Hbytes Hbase (bs & Hbs & Hlen)] Hfull Hlo Hwhy.
  rewrite gstack_push_doubles, stack_push_doubles by lia.
  destruct (Z.lt_ge_cases SIZE_MAX (2 * cap s * memb_size s)) as [Hov|Hfit].
  - exists m. rewrite grow_tail_overflow by (simpl; lia). auto.
  - destruct Hwhy as [->|]; [|lia].
    eexists. erewrite grow_tail_refused by (simpl; eauto; lia).
    simpl. auto.
Qed.

Lemma one_huge_wf : wf one_huge huge_mem.
Proof.
  unfold one_huge, huge_mem, mem_of.
  split; cbn [memb_size cap size data off blk blocks]; rewrite ?SIZE_MAX_eq; try lia.
  exists (fresh_bytes (2 ^ 63)). split; [apply lookup_singleton_eq|].
  rewrite length_fresh_bytes; lia.
Qed.

(** The overflow guard of push can trip after the doubled capacity is in
    the header only on a buffer above [PTRDIFF_MAX] bytes, which the model of
    the allocator can hold and no LP64 platform does: one element of 2^63
    bytes. The bound on the buffer in [sound] excludes exactly this. *)
Remark guard_trips_beyond_ptrdiff_max (v : verdict) (elem : list memval) :
  wf one_huge huge_mem /\ state_inv one_huge /\
  PTRDIFF_MAX < cap one_huge * memb_size one_huge /\
  gstack_push v one_huge elem huge_mem = Some ((false, set_cap one_huge 2), huge_mem) /\
  stack_push 8192 v one_huge elem huge_mem = Some ((false, set_cap one_huge 2), huge_mem) /\
  ~ state_inv (set_cap one_huge 2).
Proof.
  split; [exact one_huge_wf|].
  assert (Hlo : 0 <= cap one_huge <= SIZE_MAX / 2)
    by (unfold one_huge; cbn [cap]; rewrite half_max; lia).
  split; [|split; [|split; [|split]]].
  - unfold state_inv, one_huge. cbn [size cap memb_size]. rewrite SIZE_MAX_eq. lia.
  - unfold one_huge, PTRDIFF_MAX. cbn [cap memb_size]. lia.
  - rewrite gstack_push_doubles by (unfold one_huge; cbn [cap size]; rewrite ?half_max; lia).
    apply grow_tail_overflow; unfold one_huge, set_cap; cbn [cap memb_size];
      rewrite ?SIZE_MAX_eq; lia.
  - rewrite stack_push_doubles by (unfold one_huge; cbn [cap size]; rewrite ?half_max; lia).
    apply grow_tail_overflow; unfold one_huge, set_cap; cbn [cap memb_size];
      rewrite ?SIZE_MAX_eq; lia.
  - unfold state_inv, one_huge, set_cap. cbn [size cap memb_size].
    rewrite SIZE_MAX_eq. lia.
Qed.

(** ** Failures of the shrink *)

(** C4: the code departs from the specification. When the shrink of a gstack.h stack of
    odd capacity 9 is refused, pop returns the element and leaves capacity 10
    in the header of a 9-slot buffer; stack.h keeps 9. *)
Theorem refused_shrink_changes_capacity :
  let m' := record_call (CRealloc (Ptr 1 0) 4) (mem_of buf9) in
  gstack_pop Refuse three_of_9 (mem_of buf9)
    = Some ((Some (Ptr 1 2), Hdr (Ptr 1 0) 2 10 1), m') /\
  stack_pop Refuse three_of_9 (mem_of buf9)
    = Some ((Some (Ptr 1 2), Hdr (Ptr 1 0) 2 9 1), m') /\
  blocks m' !! 1%positive = Some buf9 /\
  length buf9 = 9%nat.
Proof. repeat split; vm_compute; reflexivity. Qed.

(** ** Peek, then pop *)

Lemma peek_nonempty s m :
  wf s m -> 0 < size s ->
  gstack_peek s = Some (slot s (size s - 1)) /\
  stack_peek s = Some (slot s (size s - 1)).
Proof.
  intros [Hmemb Hcap Hsz Hbytes Hbase _] Hpos.
  assert (Hcm : cap s <= SIZE_MAX) by nia.
  assert (Hnb : 0 <= (size s - 1) * memb_size s <= SIZE_MAX) by nia.
  unfold gstack_peek, stack_peek, gstack_is_empty, stack_is_empty, slot.
  destruct (Z.eqb_spec (size s) 0); [lia|].
  unfold sz_mul, sz_sub. rewrite (wrap_small (size s - 1)) by lia.
  rewrite wrap_small by lia. auto.
Qed.

Lemma slot_readable s m i :
  wf s m -> 0 <= i < cap s ->
  exists bytes, load m (slot s i) (memb_size s) = Some bytes.
Proof.
  intros [Hmemb Hcap Hsz Hbytes Hbase (bs & Hbs & Hlen)] Hi.
  eexists. apply (load_lookup m _ _ bs); simpl; rewrite ?Hbase; auto; nia.
Qed.

(** gstack.h computes the returned address after the reallocation: what pop
    returns reads as what peek returned read just before. *)
Lemma gstack_peek_then_pop v s m :
  wf s m -> 0 < size s ->
  exists p q s' m' bytes,
    gstack_peek s = Some p /\ load m p (memb_size s) = Some bytes /\
    gstack_pop v s m = Some ((Some q, s'), m') /\
    load m' q (memb_size s) = Some bytes.
Proof.
  intros Hwf Hpos. set (n := size s - 1).
  destruct (peek_nonempty s m Hwf Hpos) as [Hpeek _]. fold n in Hpeek.
  destruct (slot_readable s m n Hwf) as [bytes Hbytes];
    [pose proof (wf_size _ _ Hwf); unfold n; lia|].
  exists (slot s n).
  destruct (Z.eq_dec n 0) as [Hn0|Hn0];
    [|destruct (Z.le_gt_cases n (cap s / 4)) as [Hq|Hq]].
  - destruct (pops_no_shrink v s m Hwf Hpos) as [Hg _]; [by left|].
    do 4 eexists. eauto.
  - assert (Hn : 0 < n <= cap s / 4) by (unfold n in *; lia).
    destruct v as [|r].
    + destruct (pops_shrink_refused s m Hwf Hn) as [Hg _].
      do 4 eexists. split; [eauto|]. split; [eauto|]. split; [exact Hg|].
      rewrite <- Hbytes. by apply load_same_blocks.
    + destruct (pops_shrink_granted r s m Hwf Hn)
        as (p & m' & Hg & _ & _ & _ & _ & Hload).
      do 4 eexists. split; [eauto|]. split; [eauto|]. split; [exact Hg|].
      rewrite <- Hbytes. apply Hload. unfold n. lia.
  - destruct (pops_no_shrink v s m Hwf Hpos) as [Hg _]; [right; fold n; lia|].
    do 4 eexists. eauto.
Qed.

(** stack.h computes it before: the same holds as long as the shrink does
    not move the buffer. *)
Lemma stack_peek_then_pop v s m :
  wf s m -> 0 < size s -> v <> Grant true ->
  exists p q s' m' bytes,
    stack_peek s = Some p /\ load m p (memb_size s) = Some bytes /\
    stack_pop v s m = Some ((Some q, s'), m') /\
    load m' q (memb_size s) = Some bytes.
Proof.
  intros Hwf Hpos Hv. set (n := size s - 1).
  destruct (peek_nonempty s m Hwf Hpos) as [_ Hpeek]. fold n in Hpeek.
  destruct (slot_readable s m n Hwf) as [bytes Hbytes];
    [pose proof (wf_size _ _ Hwf); unfold n; lia|].
  exists (slot s n).
  destruct (Z.eq_dec n 0) as [Hn0|Hn0];
    [|destruct (Z.le_gt_cases n (cap s / 4)) as [Hq|Hq]].
  - destruct (pops_no_shrink v s m Hwf Hpos) as [_ Hs]; [by left|].
    do 4 eexists. eauto.
  - assert (Hn : 0 < n <= cap s / 4) by (unfold n in *; lia).
    destruct v as [|[|]]; [|congruence|].
    + destruct (pops_shrink_refused s m Hwf Hn) as [_ Hs].
      do 4 eexists. split; [eauto|]. split; [eauto|]. split; [exact Hs|].
      rewrite <- Hbytes. by apply load_same_blocks.
    + destruct (pops_shrink_granted false s m Hwf Hn)
        as (p & m' & _ & Hs & _ & _ & -> & Hload).
      do 4 eexists. split; [eauto|]. split; [eauto|]. split; [exact Hs|].
      rewrite <- Hbytes. apply Hload. unfold n. lia.
  - destruct (pops_no_shrink v s m Hwf Hpos) as [_ Hs]; [right; fold n; lia|].
    do 4 eexists. eauto.
Qed.

(** C8: stack.h departs from the specification. With three elements in a
    buffer of eight, peek points at the byte 03; the pop that follows
    shrinks, the allocator moves the buffer, and the pointer pop returns
    still points into the released block, where nothing can be read.
    gstack.h returns a pointer into the new block, which reads 03. *)
Theorem stack_pop_returns_stale_pointer :
  exists p q s' m',
    stack_peek three_of_8 = Some p /\
    load (mem_of buf8) p 1 = Some [b3] /\
    stack_pop (Grant true) three_of_8 (mem_of buf8) = Some ((Some q, s'), m') /\
    blocks m' !! blk q = None /\
    load m' q 1 = None /\
    exists q',
      gstack_pop (Grant true) three_of_8 (mem_of buf8) = Some ((Some q', s'), m') /\
      load m' q' 1 = Some [b3].
Proof.
  do 4 eexists.
  split; [vm_compute; reflexivity|]. split; [vm_compute; reflexivity|].
  split; [vm_compute; reflexivity|]. split; [vm_compute; reflexivity|].
  split; [vm_compute; reflexivity|].
  eexists. split; vm_compute; reflexivity.
Qed.

(** ** Valid states stay valid, except after the failures above *)

Lemma wf_state_inv s m : wf s m -> state_inv s.
Proof. intros [? ? ? ? ? ?]. unfold state_inv. lia. Qed.

Lemma wf_set_size s m n : wf s m -> 0 <= n <= cap s -> wf (set_size s n) m.
Proof. intros [? ? ? ? ? ?] Hn. split; simpl; auto. Qed.

Lemma wf_same_blocks s m m' : wf s m -> blocks m' = blocks m -> wf s m'.
Proof. intros [? ? ? ? ? ?] Hb. split; auto. by rewrite Hb. Qed.

Lemma grow_tail_success_wf v s c elem m s' m' :
  wf s m -> size s = cap s -> cap s < c ->
  memb_size s <= Z.of_nat (length elem) ->
  grow_tail v (set_cap s c) elem m = Some ((true, s'), m') ->
  wf s' m' /\ cap s' = c /\ size s' = size s + 1.
Proof.
  intros Hwf Hfull Hc Hel Hrun.
  pose proof (wf_memb _ _ Hwf). pose proof (wf_cap _ _ Hwf).
  destruct (Z.lt_ge_cases SIZE_MAX (c * memb_size s)) as [Hov|Hfit].
  - rewrite grow_tail_overflow in Hrun by (simpl; lia). discriminate.
  - destruct v as [|r].
    + destruct (wf_buf _ _ Hwf) as (bs & Hbs & _).
      erewrite grow_tail_refused in Hrun
        by (simpl; eauto using wf_base; lia).
      discriminate.
    + destruct (grown_granted r s c elem m)
        as (s1 & m1 & Hrun1 & Hwf1 & Hc1 & Hs1 & _); auto.
      rewrite Hrun1 in Hrun. injection Hrun as <- <-. auto.
Qed.

(** Every push that returns true leaves a valid stack, in both headers. *)
Lemma push_success_wf BUFSIZ v s elem m s' m' :
  wf s m -> memb_size s <= Z.of_nat (length elem) -> 0 < BUFSIZ <= SIZE_MAX ->
  gstack_push v s elem m = Some ((true, s'), m') \/
  stack_push BUFSIZ v s elem m = Some ((true, s'), m') ->
  wf s' m'.
Proof.
  intros Hwf Hel HB Hrun.
  pose proof (wf_size _ _ Hwf) as Hsz. pose proof (wf_cap _ _ Hwf) as Hcap.
  pose proof (wf_memb _ _ Hwf) as Hmemb. pose proof (wf_bytes _ _ Hwf) as Hbytes.
  destruct (Z.lt_ge_cases (size s) (cap s)) as [Hroom|Hfull].
  - destruct (push_with_room BUFSIZ v s elem m Hwf Hroom Hel)
      as (m1 & Hg & Hs & Hwf1 & _).
    rewrite Hg, Hs in Hrun. by destruct Hrun as [[= <- <-]|[= <- <-]].
  - assert (Heq : size s = cap s) by lia.
    destruct (Z.le_gt_cases (cap s) (SIZE_MAX / 2)) as [Hlo|Hhi].
    + rewrite gstack_push_doubles, stack_push_doubles in Hrun by lia.
      assert (Hrun' : grow_tail v (set_cap s (2 * cap s)) elem m = Some ((true, s'), m'))
        by (by destruct Hrun).
      eapply grow_tail_success_wf in Hrun'; eauto; [tauto|lia].
    + rewrite gstack_push_at_ceiling in Hrun by lia.
      destruct Hrun as [|Hrun]; [discriminate|].
      assert (Hcm : cap s <= SIZE_MAX) by nia.
      destruct (Z.lt_ge_cases SIZE_MAX (cap s + BUFSIZ)) as [Hov|Hfit].
      * rewrite stack_push_at_ceiling in Hrun by lia. discriminate.
      * rewrite stack_push_linear in Hrun by lia.
        eapply grow_tail_success_wf in Hrun; eauto; [tauto|lia].
Qed.

(** stack.h: pop always leaves a valid stack. *)
Lemma stack_pop_wf v s m p s' m' :
  wf s m -> stack_pop v s m = Some ((p, s'), m') -> wf s' m'.
Proof.
  intros Hwf Hrun. pose proof (wf_size _ _ Hwf) as Hsz.
  destruct (Z.eq_dec (size s) 0) as [H0|H0].
  - destruct (pop_empty_shape v s m H0) as [_ Hs].
    rewrite Hs in Hrun. by injection Hrun as <- <- <-.
  - assert (Hpos : 0 < size s) by lia. set (n := size s - 1).
    destruct (Z.eq_dec n 0) as [Hn0|Hn0];
      [|destruct (Z.le_gt_cases n (cap s / 4)) as [Hq|Hq]].
    + destruct (pops_no_shrink v s m Hwf Hpos) as [_ Hs]; [by left|].
      rewrite Hs in Hrun. injection Hrun as <- <- <-.
      apply wf_set_size; [assumption|lia].
    + assert (Hn : 0 < n <= cap s / 4) by (unfold n in *; lia).
      destruct v as [|r].
      * destruct (pops_shrink_refused s m Hwf Hn) as [_ Hs].
        rewrite Hs in Hrun. injection Hrun as <- <- <-.
        apply (wf_same_blocks _ m); [|reflexivity].
        apply wf_set_size; [assumption|lia].
      * destruct (pops_shrink_granted r s m Hwf Hn)
          as (p1 & m1 & _ & Hs & Hwf1 & _).
        rewrite Hs in Hrun. by injection Hrun as <- <- <-.
    + destruct (pops_no_shrink v s m Hwf Hpos) as [_ Hs]; [right; fold n; lia|].
      rewrite Hs in Hrun. injection Hrun as <- <- <-.
      apply wf_set_size; [assumption|lia].
Qed.

(** gstack.h: pop leaves a valid stack unless a shrink at odd capacity is
    refused. *)
Lemma gstack_pop_wf v s m p s' m' :
  wf s m -> v <> Refuse \/ cap s mod 2 = 0 ->
  gstack_pop v s m = Some ((p, s'), m') -> wf s' m'.
Proof.
  intros Hwf Hside Hrun. pose proof (wf_size _ _ Hwf) as Hsz.
  destruct (Z.eq_dec (size s) 0) as [H0|H0].
  - destruct (pop_empty_shape v s m H0) as [Hg _].
    rewrite Hg in Hrun. by injection Hrun as <- <- <-.
  - assert (Hpos : 0 < size s) by lia. set (n := size s - 1).
    destruct (Z.eq_dec n 0) as [Hn0|Hn0];
      [|destruct (Z.le_gt_cases n (cap s / 4)) as [Hq|Hq]].
    + destruct (pops_no_shrink v s m Hwf Hpos) as [Hg _]; [by left|].
      rewrite Hg in Hrun. injection Hrun as <- <- <-.
      apply wf_set_size; [assumption|lia].
    + assert (Hn : 0 < n <= cap s / 4) by (unfold n in *; lia).
      destruct v as [|r].
      * destruct Hside as [|Heven]; [congruence|].
        destruct (pops_shrink_refused s m Hwf Hn) as [Hg _].
        rewrite Hg, Heven in Hrun. simpl in Hrun. injection Hrun as <- <- <-.
        apply (wf_same_blocks _ m); [|reflexivity].
        apply (wf_set_size s m n); [assumption|lia].
      * destruct (pops_shrink_granted r s m Hwf Hn)
          as (p1 & m1 & Hg & _ & Hwf1 & _).
        rewrite Hg in Hrun. by injection Hrun as <- <- <-.
    + destruct (pops_no_shrink v s m Hwf Hpos) as [Hg _]; [right; fold n; lia|].
      rewrite Hg in Hrun. injection Hrun as <- <- <-.
      apply wf_set_size; [assumption|lia].
Qed.

(** ** The two headers side by side *)

Lemma push_agree BUFSIZ v s elem :
  cap s <= SIZE_MAX / 2 -> stack_push BUFSIZ v s elem = gstack_push v s elem.
Proof.
  intros Hlo. unfold stack_push, gstack_push.
  rewrite Z.gtb_ltb, (proj2 (Z.ltb_ge _ _)) by lia. reflexivity.
Qed.

Lemma pop_agree v s m :
  agreeable (OPop v) s = true ->
  outcomes_agree (relocating (OPop v)) (gstack_pop v s m) (stack_pop v s m).
Proof.
  unfold agreeable, shrinks, gstack_pop, stack_pop, gstack_is_empty,
    stack_is_empty, outcomes_agree, bind, ret.
  destruct (size s =? 0) eqn:Hemp; [by auto|]. simpl.
  set (n := sz_sub (size s) 1).
  destruct (negb (n =? 0) && (n <=? cap s / 4)) eqn:Hshr; simpl.
  - rewrite negb_involutive. intros ->. simpl.
    unfold sz_mul. rewrite (Z.mul_comm (memb_size s)).
    unfold realloc. destruct (blocks m !! blk (data s)); [|exact I].
    destruct (off (data s) =? 0); [|exact I].
    destruct v as [|[|]]; simpl; auto. repeat split. discriminate.
  - auto.
Qed.

Lemma step_agree BUFSIZ o s m :
  agreeable o s = true ->
  outcomes_agree (relocating o) (gstack_step o s m) (stack_step BUFSIZ o s m).
Proof.
  intros Hok. destruct o as [v elem|v| | | |]; try (simpl; by auto).
  - unfold gstack_step, stack_step, outcomes_agree, bind, ret.
    simpl in Hok. apply Z.leb_le in Hok.
    rewrite (push_agree BUFSIZ) by assumption.
    destruct (gstack_push v s elem m) as [[[b s'] m']|]; simpl; auto.
  - pose proof (pop_agree v s m Hok) as H.
    unfold gstack_step, stack_step, outcomes_agree, bind, ret in *.
    destruct (gstack_pop v s m) as [[[pg sg] mg]|],
             (stack_pop v s m) as [[[pk sk] mk]|]; simpl; try tauto.
    destruct H as (-> & -> & Hp). repeat split.
    intros Hrel. by rewrite Hp.
Qed.

(** Over a whole trace within the stated conditions both headers reach the
    same header fields and memory, return as many results, and return the
    same results if no shrink moved the buffer. *)
Lemma runs_agree BUFSIZ os :
  forall s m,
    within_conditions os s m = true ->
    match gstack_run os s m, stack_run BUFSIZ os s m with
    | Some ((rg, sg), mg), Some ((rk, sk), mk) =>
        sg = sk /\ mg = mk /\ length rg = length rk /\
        (existsb relocating os = false -> rg = rk)
    | None, None => True
    | _, _ => False
    end.
Proof.
  induction os as [|o os IH]; intros s m Hok; simpl.
  - auto.
  - simpl in Hok. apply andb_prop in Hok as [Ho Hrest].
    pose proof (step_agree BUFSIZ o s m Ho) as Hstep.
    unfold bind, outcomes_agree in *.
    destruct (gstack_step o s m) as [[[rg sg] mg]|],
             (stack_step BUFSIZ o s m) as [[[rk sk] mk]|]; try tauto.
    destruct Hstep as (<- & <- & Hr). simpl.
    specialize (IH sg mg Hrest).
    destruct (gstack_run os sg mg) as [[[rsg sg'] mg']|],
             (stack_run BUFSIZ os sg mg) as [[[rsk sk'] mk']|]; try tauto.
    destruct IH as (-> & -> & Hlen & Hrs). simpl.
    repeat split; [by rewrite Hlen|].
    intros Hno. apply orb_false_elim in Hno as [Ho' Hos].
    by rewrite Hr, Hrs.
Qed.

(** C9: the code departs from the specification. Create a stack of eight one-byte
    elements, push three, peek, pop, the shrink moving the buffer: no push
    happens above SIZE_MAX / 2 and no shrink at odd capacity, both headers
    reach the same length and capacity, but gstack.h returns from pop a
    pointer into the new block and stack.h one into the released block. *)
Theorem headers_differ_on_relocating_shrink :
  exists sp s m rg rk s' m',
    gstack_create (Grant false) (Grant false) 8 1 (Mem ∅ 1 []) = Some (Some (sp, s), m) /\
    stack_create (Grant false) (Grant false) 8 1 (Mem ∅ 1 []) = Some (Some (sp, s), m) /\
    within_conditions session s m = true /\
    gstack_run session s m = Some ((rg, s'), m') /\
    stack_run 8192 session s m = Some ((rk, s'), m') /\
    size s' = 2 /\ cap s' = 4 /\
    last rg = Some (RPtr (Some (Ptr 3 2))) /\
    last rk = Some (RPtr (Some (Ptr 2 2))) /\
    blocks m' !! 2%positive = None /\
    rg <> rk.
Proof.
  do 7 eexists.
  split; [vm_compute; reflexivity|]. split; [vm_compute; reflexivity|].
  split; [vm_compute; reflexivity|]. split; [vm_compute; reflexivity|].
  split; [vm_compute; reflexivity|]. split; [reflexivity|].
  split; [reflexivity|]. split; [reflexivity|]. split; [reflexivity|].
  split; [vm_compute; reflexivity|]. vm_compute. discriminate.
Qed.

(** ** What a push and a pop do to the elements *)

Lemma grow_tail_effect v s c elem m b s' m' :
  wf s m -> size s = cap s -> cap s < c ->
  memb_size s <= Z.of_nat (length elem) ->
  grow_tail v (set_cap s c) elem m = Some ((b, s'), m') ->
  memb_size s' = memb_size s /\
  if b then
    wf s' m' /\ size s' = size s + 1 /\
    load m' (slot s' (size s)) (memb_size s)
      = Some (take (Z.to_nat (memb_size s)) elem) /\
    (forall i, 0 <= i < size s ->
       load m' (slot s' i) (memb_size s) = load m (slot s i) (memb_size s))
  else
    size s' = size s /\ data s' = data s /\ blocks m' = blocks m.
Proof.
  intros Hwf Hfull Hc Hel Hrun.
  pose proof (wf_memb _ _ Hwf). pose proof (wf_cap _ _ Hwf).
  destruct (Z.lt_ge_cases SIZE_MAX (c * memb_size s)) as [Hov|Hfit].
  - rewrite grow_tail_overflow in Hrun by (simpl; lia).
    injection Hrun as <- <- <-. simpl. auto.
  - destruct v as [|r].
    + destruct (wf_buf _ _ Hwf) as (bs & Hbs & _).
      erewrite grow_tail_refused in Hrun
        by (simpl; eauto using wf_base; lia).
      injection Hrun as <- <- <-. simpl. auto.
    + destruct (grown_granted r s c elem m)
        as (s1 & m1 & Hrun1 & Hwf1 & Hc1 & Hs1 & He1 & _ & Hnew & Hold); auto.
      rewrite Hrun1 in Hrun. injection Hrun as <- <- <-. auto.
Qed.

(** Any push on a valid stack, in either header. *)
Lemma push_effect BUFSIZ v s elem m b s' m' :
  wf s m -> memb_size s <= Z.of_nat (length elem) -> 0 < BUFSIZ <= SIZE_MAX ->
  gstack_push v s elem m = Some ((b, s'), m') \/
  stack_push BUFSIZ v s elem m = Some ((b, s'), m') ->
  memb_size s' = memb_size s /\
  if b then
    wf s' m' /\ size s' = size s + 1 /\
    load m' (slot s' (size s)) (memb_size s)
      = Some (take (Z.to_nat (memb_size s)) elem) /\
    (forall i, 0 <= i < size s ->
       load m' (slot s' i) (memb_size s) = load m (slot s i) (memb_size s))
  else
    size s' = size s /\ data s' = data s /\ blocks m' = blocks m.
Proof.
  intros Hwf Hel HB Hrun.
  pose proof (wf_size _ _ Hwf) as Hsz. pose proof (wf_cap _ _ Hwf) as Hcap.
  pose proof (wf_memb _ _ Hwf) as Hmemb. pose proof (wf_bytes _ _ Hwf) as Hbytes.
  destruct (Z.lt_ge_cases (size s) (cap s)) as [Hroom|Hfull].
  - destruct (push_with_room BUFSIZ v s elem m Hwf Hroom Hel)
      as (m1 & Hg & Hs & Hwf1 & _ & _ & _ & Hnew & Hold).
    rewrite Hg, Hs in Hrun.
    assert (Heq : (b, s', m') = (true, set_size s (size s + 1), m1))
      by (destruct Hrun; congruence).
    injection Heq as -> -> ->. simpl. auto.
  - assert (Heq : size s = cap s) by lia.
    destruct (Z.le_gt_cases (cap s) (SIZE_MAX / 2)) as [Hlo|Hhi].
    + rewrite gstack_push_doubles, stack_push_doubles in Hrun by lia.
      assert (Hrun' : grow_tail v (set_cap s (2 * cap s)) elem m = Some ((b, s'), m'))
        by (by destruct Hrun).
      eapply grow_tail_effect in Hrun'; eauto. lia.
    + assert (Hcm : cap s <= SIZE_MAX) by nia.
      rewrite gstack_push_at_ceiling in Hrun by lia.
      destruct (Z.lt_ge_cases SIZE_MAX (cap s + BUFSIZ)) as [Hov|Hfit].
      * rewrite stack_push_at_ceiling in Hrun by lia.
        assert (Hq : (b, s', m') = (false, s, m)) by (destruct Hrun; congruence).
        injection Hq as -> -> ->. auto.
      * rewrite stack_push_linear in Hrun by lia.
        destruct Hrun as [Hrun|Hrun].
        -- injection Hrun as <- <- <-. auto.
        -- eapply grow_tail_effect in Hrun; eauto. lia.
Qed.

Lemma slot_set_size s n i : slot (set_size s n) i = slot s i.
Proof. reflexivity. Qed.


(** gstack.h: any pop of a non-empty valid stack. *)
Lemma gstack_pop_effect v s m :
  wf s m -> 0 < size s ->
  exists s' m',
    gstack_pop v s m = Some ((Some (slot s' (size s - 1)), s'), m') /\
    size s' = size s - 1 /\ memb_size s' = memb_size s /\
    (forall i, 0 <= i < size s ->
       load m' (slot s' i) (memb_size s) = load m (slot s i) (memb_size s)) /\
    (v <> Refuse \/ cap s mod 2 = 0 -> wf s' m').
Proof.
  intros Hwf Hpos. pose proof (wf_size _ _ Hwf) as Hsz. set (n := size s - 1).
  destruct (Z.eq_dec n 0) as [Hn0|Hn0];
    [|destruct (Z.le_gt_cases n (cap s / 4)) as [Hq|Hq]].
  - destruct (pops_no_shrink v s m Hwf Hpos) as [Hg _]; [by left|].
    exists (set_size s n), m. split; [exact Hg|]. simpl.
    split; [reflexivity|]. split; [reflexivity|]. split; [auto|].
    intros _. apply wf_set_size; [assumption|lia].
  - assert (Hn : 0 < n <= cap s / 4) by (unfold n in *; lia).
    destruct v as [|r].
    + destruct (pops_shrink_refused s m Hwf Hn) as [Hg _].
      eexists (Hdr (data s) n _ (memb_size s)), _.
      split; [exact Hg|]. simpl.
      split; [reflexivity|]. split; [reflexivity|]. split; [auto|].
      intros [|Heven]; [congruence|]. rewrite Heven. simpl.
      apply (wf_same_blocks _ m); [|reflexivity].
      apply (wf_set_size s m n); [assumption|lia].
    + destruct (pops_shrink_granted r s m Hwf Hn)
        as (p & m' & Hg & _ & Hwf' & _ & Hp & Hload).
      exists (Hdr p n (cap s / 2) (memb_size s)), m'.
      split; [exact Hg|]. simpl.
      split; [reflexivity|]. split; [reflexivity|]. split; [|auto].
      intros i Hi. apply Hload. unfold n. lia.
  - destruct (pops_no_shrink v s m Hwf Hpos) as [Hg _]; [right; fold n; lia|].
    exists (set_size s n), m. split; [exact Hg|]. simpl.
    split; [reflexivity|]. split; [reflexivity|]. split; [auto|].
    intros _. apply wf_set_size; [assumption|lia].
Qed.

(** ** The stack represents a list *)

Lemma repr_wf s m es : repr s m es -> wf s m.
Proof. by intros [? _]. Qed.

Lemma repr_top s m es e :
  repr s m (es ++ [e]) ->
  0 < size s /\ size s - 1 = Z.of_nat (length es) /\
  load m (slot s (size s - 1)) (memb_size s) = Some e.
Proof.
  intros (Hwf & Hsz & Hload). rewrite length_app in Hsz. simpl in Hsz.
  assert (Hn : size s - 1 = Z.of_nat (length es)) by lia.
  split; [lia|]. split; [exact Hn|]. rewrite Hn. apply Hload.
  by apply list_lookup_middle.
Qed.

Lemma repr_snoc s m s' m' es e :
  repr s m es -> wf s' m' -> size s' = size s + 1 ->
  memb_size s' = memb_size s ->
  load m' (slot s' (size s)) (memb_size s) = Some e ->
  (forall i, 0 <= i < size s ->
     load m' (slot s' i) (memb_size s) = load m (slot s i) (memb_size s)) ->
  repr s' m' (es ++ [e]).
Proof.
  intros (Hwf & Hsz & Hload) Hwf' Hsz' Hmemb Hnew Hold.
  split; [exact Hwf'|]. split; [rewrite length_app; simpl; lia|].
  intros i x Hi. rewrite Hmemb.
  apply lookup_snoc_Some in Hi as [[Hlt Hi]|[-> <-]].
  - rewrite Hold by lia. by apply Hload.
  - by rewrite <- Hsz.
Qed.

Lemma repr_init s m s' m' es e :
  repr s m (es ++ [e]) -> wf s' m' -> size s' = size s - 1 ->
  memb_size s' = memb_size s ->
  (forall i, 0 <= i < size s ->
     load m' (slot s' i) (memb_size s) = load m (slot s i) (memb_size s)) ->
  repr s' m' es.
Proof.
  intros (Hwf & Hsz & Hload) Hwf' Hsz' Hmemb Hold.
  rewrite length_app in Hsz. simpl in Hsz.
  split; [exact Hwf'|]. split; [lia|].
  intros i x Hi. rewrite Hmemb.
  pose proof (lookup_lt_Some _ _ _ Hi).
  rewrite Hold by lia. apply Hload. by apply lookup_app_l_Some.
Qed.

(** X1: a stack that create returns is the empty stack: it represents no
    element, is_empty holds, is_full does not, peek and pop return null. *)
Theorem create_gives_empty_stack (r1 r2 : bool) (c e : Z) (m : mem) :
  0 < c -> 0 < e -> c * e <= SIZE_MAX ->
  exists sp s m',
    gstack_create (Grant r1) (Grant r2) c e m = Some (Some (sp, s), m') /\
    stack_create (Grant r1) (Grant r2) c e m = Some (Some (sp, s), m') /\
    repr s m' [] /\
    gstack_is_empty s = true /\ gstack_is_full s = false /\
    gstack_size s = 0 /\ gstack_peek s = None /\
    forall v, gstack_pop v s m' = Some ((None, s), m') /\
              stack_pop v s m' = Some ((None, s), m').
Proof.
  intros Hc He Hfit.
  destruct (create_granted r1 r2 c e m Hc He Hfit) as (m' & Hrun & Hwf & _).
  do 3 eexists. split; [exact Hrun|]. split; [exact Hrun|].
  split; [|split; [reflexivity|split; [|split; [reflexivity|split; [reflexivity|]]]]].
  - split; [exact Hwf|]. split; [reflexivity|]. intros i x Hi.
    by rewrite lookup_nil in Hi.
  - unfold gstack_is_full. cbn [size cap]. apply Z.eqb_neq. lia.
  - intros v. by apply pop_empty_shape.
Qed.

Lemma create_gives_empty_stack_witness :
  exists sp s m',
    gstack_create (Grant false) (Grant false) 4 8 (Mem ∅ 1 []) = Some (Some (sp, s), m') /\
    stack_create (Grant false) (Grant false) 4 8 (Mem ∅ 1 []) = Some (Some (sp, s), m') /\
    repr s m' [] /\
    gstack_is_empty s = true /\ gstack_is_full s = false /\
    gstack_size s = 0 /\ gstack_peek s = None /\
    forall v, gstack_pop v s m' = Some ((None, s), m') /\
              stack_pop v s m' = Some ((None, s), m').
Proof.
  apply (create_gives_empty_stack false false 4 8 (Mem ∅ 1 []));
    rewrite ?SIZE_MAX_eq; lia.
Defined.

(** X2: a push that returns true, in either header and whatever the
    allocator did (room, growth in place, growth with relocation), appends
    the element: the stack represents the old elements followed by the first
    [memb_size] bytes of the pushed one, and peek then points at those
    bytes. *)
Theorem push_appends (BUFSIZ : Z) (v : verdict) (s : gstack)
    (elem : list memval) (m : mem) (es : list (list memval))
    (s' : gstack) (m' : mem) :
  repr s m es -> memb_size s <= Z.of_nat (length elem) ->
  0 < BUFSIZ <= SIZE_MAX ->
  gstack_push v s elem m = Some ((true, s'), m') \/
  stack_push BUFSIZ v s elem m = Some ((true, s'), m') ->
  let e := take (Z.to_nat (memb_size s)) elem in
  repr s' m' (es ++ [e]) /\
  exists q, gstack_peek s' = Some q /\ stack_peek s' = Some q /\
            load m' q (memb_size s') = Some e.
Proof.
  intros Hrepr Hel HB Hrun e.
  destruct (push_effect BUFSIZ v s elem m true s' m' (repr_wf _ _ _ Hrepr) Hel HB Hrun)
    as (Hmemb & Hwf' & Hsz' & Hnew & Hold).
  assert (Hr' : repr s' m' (es ++ [e])) by (eapply repr_snoc; eauto).
  split; [exact Hr'|].
  destruct (repr_top _ _ _ _ Hr') as (Hpos & _ & Htop).
  destruct (peek_nonempty s' m' Hwf' Hpos) as [Hg Hs].
  eauto.
Qed.

(** X3: a push that returns false, in either header, removes and adds
    nothing: size and buffer pointer are as before and every element still
    reads the same, so peek returns what it returned before. *)
Theorem failed_push_keeps_elements (BUFSIZ : Z) (v : verdict) (s : gstack)
    (elem : list memval) (m : mem) (es : list (list memval))
    (s' : gstack) (m' : mem) :
  repr s m es -> memb_size s <= Z.of_nat (length elem) ->
  0 < BUFSIZ <= SIZE_MAX ->
  gstack_push v s elem m = Some ((false, s'), m') \/
  stack_push BUFSIZ v s elem m = Some ((false, s'), m') ->
  size s' = size s /\ data s' = data s /\ memb_size s' = memb_size s /\
  gstack_peek s' = gstack_peek s /\ stack_peek s' = stack_peek s /\
  forall (i : nat) e, es !! i = Some e ->
    load m' (slot s' (Z.of_nat i)) (memb_size s') = Some e.
Proof.
  intros (Hwf & Hsz & Hload) Hel HB Hrun.
  destruct (push_effect BUFSIZ v s elem m false s' m' Hwf Hel HB Hrun)
    as (Hmemb & Hsz' & Hdata & Hblocks).
  assert (Hpeek : gstack_peek s' = gstack_peek s)
    by (unfold gstack_peek, gstack_is_empty; by rewrite Hsz', Hdata, Hmemb).
  repeat split; auto.
  intros i e Hi. unfold slot. rewrite Hmemb, Hdata.
  rewrite (load_same_blocks m m') by assumption. by apply Hload.
Qed.

(** X4: peek on a stack that represents [es ++ [e]] returns a pointer at which
    [e] is read, and null on a stack that represents no element; it is the
    same function in both headers. *)
Theorem peek_reads_top (s : gstack) (m : mem) (es : list (list memval)) :
  repr s m es ->
  stack_peek s = gstack_peek s /\
  match last es with
  | Some e => exists q, gstack_peek s = Some q /\ load m q (memb_size s) = Some e
  | None => gstack_peek s = None
  end.
Proof.
  intros Hrepr. split; [reflexivity|].
  destruct es as [|x es0] using rev_ind.
  - simpl. destruct Hrepr as (_ & Hsz & _). unfold gstack_peek, gstack_is_empty.
    by rewrite Hsz.
  - rewrite last_snoc.
    destruct (repr_top _ _ _ _ Hrepr) as (Hpos & _ & Htop).
    destruct (peek_nonempty s m (repr_wf _ _ _ Hrepr) Hpos) as [Hg _]. eauto.
Qed.


(** X6: gstack.h pop on a stack that represents [es ++ [e]] succeeds for every
    allocator answer, returns a pointer that reads [e] and leaves the
    elements of [es] readable at their slots; the stack it leaves is valid
    and represents [es] unless a shrink at odd capacity was refused. *)
Theorem gstack_pop_removes_top (v : verdict) (s : gstack) (m : mem)
    (es : list (list memval)) (e : list memval) :
  repr s m (es ++ [e]) ->
  exists q s' m',
    gstack_pop v s m = Some ((Some q, s'), m') /\
    load m' q (memb_size s) = Some e /\
    size s' = Z.of_nat (length es) /\
    (forall (i : nat) x, es !! i = Some x ->
       load m' (slot s' (Z.of_nat i)) (memb_size s') = Some x) /\
    (v <> Refuse \/ cap s mod 2 = 0 -> repr s' m' es).
Proof.
  intros Hrepr. destruct (repr_top _ _ _ _ Hrepr) as (Hpos & Hn & Htop).
  destruct (gstack_pop_effect v s m (repr_wf _ _ _ Hrepr) Hpos)
    as (s' & m' & Hrun & Hsz' & Hmemb & Hold & Hwf').
  exists (slot s' (size s - 1)), s', m'. split; [exact Hrun|].
  split; [rewrite Hold by lia; exact Htop|]. split; [lia|]. split.
  - intros i x Hi. pose proof (lookup_lt_Some _ _ _ Hi).
    rewrite Hmemb, Hold by lia.
    destruct Hrepr as (_ & _ & Hload). apply Hload. by apply lookup_app_l_Some.
  - intros Hside. eapply repr_init; eauto.
Qed.

(** ** What the operations leave alone *)

Lemma frame_refl s m : frame s m s m.
Proof. unfold frame. repeat split; auto. lia. Qed.

Lemma frame_same_blocks s m s' m' :
  data s' = data s -> blocks m' = blocks m -> nextblock m' = nextblock m ->
  frame s m s' m'.
Proof.
  intros Hd Hb Hn. unfold frame. rewrite Hd, Hb, Hn.
  repeat split; auto. lia.
Qed.

Lemma frame_then_store s m s1 m1 s' m' :
  frame s m s1 m1 -> data s' = data s1 -> nextblock m' = nextblock m1 ->
  (forall b, b <> blk (data s1) -> blocks m' !! b = blocks m1 !! b) ->
  is_Some (blocks m' !! blk (data s1)) ->
  frame s m s' m'.
Proof.
  intros (Hn & Ho & Hf & Hd & Hl) Hdata Hnext Hother Hlive.
  unfold frame. rewrite Hdata, Hnext.
  split; [exact Hn|]. split; [exact Ho|]. split; [|split].
  - intros b Hb Hb1. rewrite Hother by assumption. by apply Hf.
  - destruct Hd as [He|(He & Hlt & Hdead)]; [by left|right].
    split; [exact He|]. split; [exact Hlt|].
    intros Hne. rewrite Hother by congruence. by apply Hdead.
  - intros _. exact Hlive.
Qed.

Lemma realloc_frame v s n m q m' :
  realloc v (data s) n m = Some (q, m') ->
  match q with
  | Some q => off q = 0 /\ frame s m (set_data s q) m'
  | None => blocks m' = blocks m /\ nextblock m' = nextblock m
  end.
Proof.
  unfold realloc. destruct (blocks m !! blk (data s)) as [old|] eqn:Hold;
    [|discriminate].
  destruct (Z.eqb_spec (off (data s)) 0) as [Hoff|]; [|discriminate].
  destruct v as [|[|]]; simpl; intros [= <- <-]; simpl.
  - auto.
  - split; [reflexivity|]. unfold frame. simpl.
    split; [lia|]. split; [by rewrite Hoff|]. split; [|split].
    + intros b Hb Hb'. rewrite lookup_insert_ne by congruence.
      by rewrite lookup_delete_ne by congruence.
    + right. split; [reflexivity|]. split; [lia|].
      intros Hne. rewrite lookup_insert_ne by congruence.
      apply lookup_delete_eq.
    + intros _. rewrite lookup_insert_eq. eauto.
  - split; [exact Hoff|]. unfold frame. simpl.
    split; [lia|]. split; [reflexivity|]. split; [|split].
    + intros b Hb _. by rewrite lookup_insert_ne by congruence.
    + by left.
    + intros _. rewrite lookup_insert_eq. eauto.
Qed.

Lemma copy_in_frame s elem m b s' m' :
  copy_in s elem m = Some ((b, s'), m') ->
  data s' = data s /\ nextblock m' = nextblock m /\
  (forall b', b' <> blk (data s) -> blocks m' !! b' = blocks m !! b') /\
  is_Some (blocks m' !! blk (data s)).
Proof.
  unfold copy_in, bind, ret, memcpy, undefined, store.
  destruct ((0 <=? memb_size s) && (memb_size s <=? Z.of_nat (length elem)));
    [|discriminate].
  simpl. destruct (blocks m !! blk (data s)) as [bs|]; [|discriminate].
  match goal with |- context [if ?c then _ else _] => destruct c end;
    [|discriminate].
  intros [= <- <- <-]. simpl. repeat split.
  - intros b' Hb'. by rewrite lookup_insert_ne by congruence.
  - rewrite lookup_insert_eq. eauto.
Qed.

Lemma grow_tail_frame v s elem m b s' m' :
  grow_tail v s elem m = Some ((b, s'), m') -> frame s m s' m'.
Proof.
  unfold grow_tail, bind, ret, undefined.
  destruct (memb_size s =? 0); [discriminate|].
  destruct (cap s >? SIZE_MAX / memb_size s).
  - intros [= <- <- <-]. apply frame_refl.
  - destruct (realloc v (data s) _ m) as [[q m1]|] eqn:Hre; [|discriminate].
    apply realloc_frame in Hre. destruct q as [q|].
    + destruct Hre as [_ Hfr]. intros Hcopy.
      apply copy_in_frame in Hcopy as (Hd & Hn & Hother & Hlive).
      eapply frame_then_store; eauto.
    + destruct Hre as [Hb Hn]. intros [= <- <- <-].
      by apply frame_same_blocks.
Qed.

Lemma copy_in_frame' s elem m b s' m' :
  copy_in s elem m = Some ((b, s'), m') -> frame s m s' m'.
Proof.
  intros Hcopy. apply copy_in_frame in Hcopy as (Hd & Hn & Hother & Hlive).
  eapply (frame_then_store s m s m); eauto using frame_refl.
Qed.

Lemma gstack_push_frame v s elem m b s' m' :
  gstack_push v s elem m = Some ((b, s'), m') -> frame s m s' m'.
Proof.
  unfold gstack_push. destruct (size s >=? cap s).
  - destruct (cap s >? SIZE_MAX / 2).
    + intros [= <- <- <-]. apply frame_refl.
    + intros H. exact (grow_tail_frame v (set_cap s _) elem m b s' m' H).
  - apply copy_in_frame'.
Qed.

Lemma stack_push_frame BUFSIZ v s elem m b s' m' :
  stack_push BUFSIZ v s elem m = Some ((b, s'), m') -> frame s m s' m'.
Proof.
  unfold stack_push. destruct (size s >=? cap s).
  - destruct (cap s >? SIZE_MAX / 2).
    + destruct (sz_add (cap s) BUFSIZ <? cap s).
      * intros [= <- <- <-]. apply frame_refl.
      * intros H. exact (grow_tail_frame v (set_cap s _) elem m b s' m' H).
    + intros H. exact (grow_tail_frame v (set_cap s _) elem m b s' m' H).
  - apply copy_in_frame'.
Qed.

Lemma stack_pop_frame v s m q s' m' :
  stack_pop v s m = Some ((q, s'), m') -> frame s m s' m'.
Proof.
  unfold stack_pop, bind, ret. destruct (stack_is_empty s).
  - intros [= <- <- <-]. apply frame_refl.
  - set (s1 := set_size s _).
    destruct (negb (size s1 =? 0) && (size s1 <=? cap s1 / 4)).
    + destruct (realloc v (data s1) _ m) as [[p m1]|] eqn:Hre; [|discriminate].
      apply realloc_frame in Hre. destruct p as [p|].
      * destruct Hre as [_ Hfr]. intros [= <- <- <-]. exact Hfr.
      * destruct Hre as [Hb Hn]. intros [= <- <- <-].
        by apply frame_same_blocks.
    + intros [= <- <- <-]. by apply frame_same_blocks.
Qed.

Lemma gstack_pop_frame v s m q s' m' :
  gstack_pop v s m = Some ((q, s'), m') -> frame s m s' m'.
Proof.
  unfold gstack_pop, bind, ret. destruct (gstack_is_empty s).
  - intros [= <- <- <-]. apply frame_refl.
  - set (s1 := set_size s _).
    destruct (negb (size s1 =? 0) && (size s1 <=? cap s1 / 4)).
    + set (s2 := if negb (cap s1 mod 2 =? 0) then _ else s1).
      assert (Hd : data s2 = data s) by (unfold s2; by destruct (negb _)).
      destruct (realloc v (data s2) _ m) as [[p m1]|] eqn:Hre; [|discriminate].
      apply realloc_frame in Hre. destruct p as [p|].
      * destruct Hre as [_ Hfr]. intros [= <- <- <-].
        unfold frame in *. simpl in *. by rewrite Hd in Hfr.
      * destruct Hre as [Hb Hn]. intros [= <- <- <-].
        by apply frame_same_blocks.
    + intros [= <- <- <-]. by apply frame_same_blocks.
Qed.

Lemma frame_frame_of hdr s m s' m' : frame s m s' m' -> frame_of hdr s m s' m'.
Proof.
  intros (_ & _ & Hf & Hmv & Hl). unfold frame_of.
  split; [|split; [|exact Hl]].
  - intros b _. apply Hf.
  - destruct Hmv as [He|(He & Hlt & Hdead)]; [by left|right]. auto.
Qed.

(** X7: whatever the allocator answers, a push or a pop of either header
    that returns, on a stack whose header is the object at [hdr], has changed
    no block other than the header and the stack's buffer: every block that
    is neither reads as before, a buffer that moved went to the next fresh
    block and its old block was released, and the buffer is still live. *)
Theorem operations_touch_only_header_and_buffer (BUFSIZ : Z) (hdr : ptr)
    (v : verdict) (s : gstack) (elem : list memval) (m : mem) :
  match gstack_push v s elem m with
  | Some ((_, s'), m') => frame_of hdr s m s' m' | None => True end /\
  match stack_push BUFSIZ v s elem m with
  | Some ((_, s'), m') => frame_of hdr s m s' m' | None => True end /\
  match gstack_pop v s m with
  | Some ((_, s'), m') => frame_of hdr s m s' m' | None => True end /\
  match stack_pop v s m with
  | Some ((_, s'), m') => frame_of hdr s m s' m' | None => True end.
Proof.
  split; [|split; [|split]].
  - destruct (gstack_push v s elem m) as [[[b s'] m']|] eqn:H; [|exact I].
    eapply frame_frame_of, gstack_push_frame; eauto.
  - destruct (stack_push BUFSIZ v s elem m) as [[[b s'] m']|] eqn:H; [|exact I].
    eapply frame_frame_of, stack_push_frame; eauto.
  - destruct (gstack_pop v s m) as [[[q s'] m']|] eqn:H; [|exact I].
    eapply frame_frame_of, gstack_pop_frame; eauto.
  - destruct (stack_pop v s m) as [[[q s'] m']|] eqn:H; [|exact I].
    eapply frame_frame_of, stack_pop_frame; eauto.
Qed.

(** ** Sessions: create, operate, destroy *)

Lemma owned_frame m0 sp s m s' m' :
  alloc_ok m0 -> owned m0 sp s m -> frame s m s' m' -> owned m0 sp s' m'.
Proof.
  intros H0 (Hok & Hsp0 & Hsp & Hd0 & Hd & Hne & Hosp & Hod & Hlsp & Hld & Hrest)
    (Hn & Ho & Hf & Hmv & Hl).
  assert (Hd' : (blk (data s') < nextblock m')%positive)
    by (destruct Hmv as [->|(-> & ? & _)]; lia).
  assert (Hd0' : (nextblock m0 <= blk (data s'))%positive)
    by (destruct Hmv as [->|(-> & _)]; lia).
  assert (Hne' : blk sp <> blk (data s'))
    by (destruct Hmv as [->|(-> & _)]; [assumption|lia]).
  assert (Hok' : alloc_ok m')
    by (intros b Hb; rewrite Hf by lia; apply Hok; lia).
  assert (Hsp' : (blk sp < nextblock m')%positive) by lia.
  assert (Hod' : off (data s') = 0) by congruence.
  assert (Hlsp' : is_Some (blocks m' !! blk sp)) by (by rewrite Hf).
  assert (Hrest' : forall b, b <> blk sp -> b <> blk (data s') ->
                     blocks m' !! b = blocks m0 !! b).
  { intros b Hb Hb'.
    destruct (decide (b = blk (data s))) as [->|Hbd].
    - destruct Hmv as [He|(He & _ & Hdead)]; [congruence|].
      rewrite Hdead by lia. symmetry. by apply H0.
    - rewrite Hf by assumption. by apply Hrest. }
  exact (conj Hok' (conj Hsp0 (conj Hsp' (conj Hd0' (conj Hd' (conj Hne'
    (conj Hosp (conj Hod' (conj Hlsp' (conj (Hl Hld) Hrest')))))))))).
Qed.

Lemma create_granted_owned r1 r2 c e m0 :
  alloc_ok m0 -> 0 < c -> 0 < e -> c * e <= SIZE_MAX ->
  exists sp s m,
    gstack_create (Grant r1) (Grant r2) c e m0 = Some (Some (sp, s), m) /\
    wf s m /\ size s = 0 /\ cap s = c /\ memb_size s = e /\ owned m0 sp s m.
Proof.
  intros H0 Hc He Hfit. unfold gstack_create.
  rewrite create_guard_false by lia.
  unfold bind, ret, malloc, record_call, sz_mul. simpl.
  rewrite wrap_small by lia. rewrite (Z.mul_comm e c).
  do 3 eexists. split; [reflexivity|]. split; [|repeat split; simpl; try lia].
  - split; simpl; try lia.
    exists (fresh_bytes (c * e)). split; [apply lookup_insert_eq|].
    apply length_fresh_bytes. lia.
  - intros b Hb. simpl in *.
    rewrite !lookup_insert_ne by lia. apply H0. lia.
  - rewrite lookup_insert_ne by lia. rewrite lookup_insert_eq. eauto.
  - rewrite lookup_insert_eq. eauto.
  - intros b Hb Hb'. by rewrite !lookup_insert_ne by congruence.
Qed.

Lemma destroy_owned m0 sp s m :
  alloc_ok m0 -> owned m0 sp s m ->
  exists m',
    gstack_destroy sp s m = Some (tt, m') /\ blocks m' = blocks m0 /\
    gstack_destroy sp s m' = None.
Proof.
  intros H0 (Hok & Hsp0 & Hsp & Hd0 & Hd & Hne & Hosp & Hod & [h Hh] & [bs Hbs] & Hrest).
  unfold gstack_destroy, bind, free, record_call. simpl.
  rewrite Hbs, Hod. simpl. rewrite lookup_delete_ne by congruence.
  rewrite Hh, Hosp. simpl. eexists. split; [reflexivity|]. simpl. split.
  - apply map_eq. intros b.
    destruct (decide (b = blk sp)) as [->|Hb1].
    + rewrite lookup_delete_eq. symmetry. by apply H0.
    + rewrite lookup_delete_ne by congruence.
      destruct (decide (b = blk (data s))) as [->|Hb2].
      * rewrite lookup_delete_eq. symmetry. by apply H0.
      * rewrite lookup_delete_ne by congruence. by apply Hrest.
  - rewrite lookup_delete_ne by congruence. by rewrite lookup_delete_eq.
Qed.








(** X9: when the buffer allocation fails, create releases the header it had
    obtained and returns null: the live blocks are those from before the
    call, and the allocator saw the two requests and the release. *)
Theorem create_failure_releases_header (r : bool) (c e : Z) (m : mem) :
  alloc_ok m -> 0 < c -> 0 < e -> c * e <= SIZE_MAX ->
  exists m',
    gstack_create (Grant r) Refuse c e m = Some (None, m') /\
    stack_create (Grant r) Refuse c e m = Some (None, m') /\
    blocks m' = blocks m /\
    calls m' = calls m ++ [CMalloc sizeof_hdr; CMalloc (c * e);
                           CFree (Ptr (nextblock m) 0)].
Proof.
  intros Hok Hc He Hfit. unfold stack_create, gstack_create.
  rewrite create_guard_false by lia.
  unfold bind, ret, malloc, free, record_call, sz_mul. simpl.
  rewrite lookup_insert_eq. simpl.
  rewrite wrap_small by lia. rewrite (Z.mul_comm e c).
  eexists. split; [reflexivity|]. split; [reflexivity|]. simpl. split.
  - rewrite delete_insert_eq. apply delete_id. apply Hok. lia.
  - by rewrite <- !app_assoc.
Qed.

Lemma create_failure_releases_header_witness :
  exists m',
    gstack_create (Grant false) Refuse 4 8 (Mem ∅ 1 []) = Some (None, m') /\
    stack_create (Grant false) Refuse 4 8 (Mem ∅ 1 []) = Some (None, m') /\
    blocks m' = ∅ /\
    calls m' = [CMalloc sizeof_hdr; CMalloc 32; CFree (Ptr 1 0)].
Proof.
  apply (create_failure_releases_header false 4 8 (Mem ∅ 1 []));
    rewrite ?SIZE_MAX_eq; try lia.
  intros b Hb. apply lookup_empty.
Defined.

(** ** Witnesses for the representation theorems *)

Lemma three_of_8_repr : repr three_of_8 (mem_of buf8) [[b1]; [b2]; [b3]].
Proof.
  split; [exact three_of_8_wf|]. split; [reflexivity|].
  intros [|[|[|i]]] e; simpl; intros [= <-]; vm_compute; reflexivity.
Qed.

Lemma full4_repr : repr full4 (mem_of buf4) [[b1]; [b2]; [b3]; [b1]].
Proof.
  split; [exact full4_wf|]. split; [reflexivity|].
  intros [|[|[|[|i]]]] e; simpl; intros [= <-]; vm_compute; reflexivity.
Qed.

Lemma push_appends_witness :
  exists s' m', repr s' m' ([[b1]; [b2]; [b3]] ++ [[b2]]).
Proof.
  exists (set_size three_of_8 4),
         (Mem (<[1%positive := splice buf8 3 [b2]]> {[1%positive := buf8]}) 2 []).
  apply (push_appends 8192 Refuse three_of_8 [b2] (mem_of buf8)
           [[b1]; [b2]; [b3]]).
  - exact three_of_8_repr.
  - simpl; lia.
  - rewrite SIZE_MAX_eq; lia.
  - left. vm_compute. reflexivity.
Defined.

Lemma failed_push_keeps_elements_witness :
  gstack_peek (set_cap full4 8) = gstack_peek full4.
Proof.
  apply (failed_push_keeps_elements 8192 Refuse full4 [b2] (mem_of buf4)
           [[b1]; [b2]; [b3]; [b1]] (set_cap full4 8)
           (record_call (CRealloc (Ptr 1 0) 8) (mem_of buf4))).
  - exact full4_repr.
  - simpl; lia.
  - rewrite SIZE_MAX_eq; lia.
  - left. vm_compute. reflexivity.
Defined.

Lemma peek_reads_top_witness :
  exists q, gstack_peek three_of_8 = Some q /\ load (mem_of buf8) q 1 = Some [b3].
Proof.
  apply (peek_reads_top three_of_8 (mem_of buf8) [[b1]; [b2]; [b3]]).
  exact three_of_8_repr.
Defined.


Lemma gstack_pop_removes_top_witness :
  exists q s' m',
    gstack_pop (Grant true) three_of_8 (mem_of buf8) = Some ((Some q, s'), m') /\
    load m' q 1 = Some [b3] /\
    size s' = 2 /\
    (forall (i : nat) x, [[b1]; [b2]] !! i = Some x ->
       load m' (slot s' (Z.of_nat i)) (memb_size s') = Some x) /\
    (Grant true <> Refuse \/ 8 mod 2 = 0 -> repr s' m' [[b1]; [b2]]).
Proof.
  apply (gstack_pop_removes_top (Grant true) three_of_8 (mem_of buf8)
           [[b1]; [b2]] [b3]).
  exact three_of_8_repr.
Defined.

(** ** No thrashing at the boundary *)

(** X10: growth and shrink do not alternate. Right after a push that had to
    grow the buffer, a pop asks the allocator for nothing and keeps the
    capacity; right after a pop whose shrink was granted, a push asks the
    allocator for nothing and keeps the capacity. Both headers. *)
Theorem growth_and_shrink_do_not_alternate (BUFSIZ : Z) (r : bool)
    (s : gstack) (elem : list memval) (m : mem) :
  wf s m -> memb_size s <= Z.of_nat (length elem) -> 0 < BUFSIZ <= SIZE_MAX ->
  (size s = cap s ->
   forall s1 m1,
     gstack_push (Grant r) s elem m = Some ((true, s1), m1) \/
     stack_push BUFSIZ (Grant r) s elem m = Some ((true, s1), m1) ->
     forall v, exists q,
       gstack_pop v s1 m1 = Some ((Some q, set_size s1 (size s)), m1) /\
       stack_pop v s1 m1 = Some ((Some q, set_size s1 (size s)), m1)) /\
  (0 < size s - 1 <= cap s / 4 ->
   forall q s1 m1,
     gstack_pop (Grant r) s m = Some ((q, s1), m1) \/
     stack_pop (Grant r) s m = Some ((q, s1), m1) ->
     forall v, exists m2,
       gstack_push v s1 elem m1 = Some ((true, set_size s1 (size s)), m2) /\
       stack_push BUFSIZ v s1 elem m1 = Some ((true, set_size s1 (size s)), m2) /\
       calls m2 = calls m1).
Proof.
  intros Hwf Hel HB.
  pose proof (wf_size _ _ Hwf) as Hsz. pose proof (wf_cap _ _ Hwf) as Hcap.
  pose proof (wf_memb _ _ Hwf) as Hmemb. pose proof (wf_bytes _ _ Hwf) as Hbytes.
  assert (Hcm : cap s <= SIZE_MAX) by nia.
  split.
  - intros Hfull s1 m1 Hrun v.
    assert (Hgrown : wf s1 m1 /\ size s1 = size s + 1 /\ cap s1 / 4 < size s).
    { destruct (Z.le_gt_cases (cap s) (SIZE_MAX / 2)) as [Hlo|Hhi].
      - rewrite gstack_push_doubles, stack_push_doubles in Hrun by lia.
        assert (Hrun' : grow_tail (Grant r) (set_cap s (2 * cap s)) elem m
                        = Some ((true, s1), m1)) by (by destruct Hrun).
        eapply grow_tail_success_wf in Hrun' as (Hwf1 & Hc1 & Hs1); eauto; [|lia].
        split; [exact Hwf1|]. split; [exact Hs1|]. rewrite Hc1.
        apply Z.div_lt_upper_bound; lia.
      - rewrite gstack_push_at_ceiling in Hrun by lia.
        destruct Hrun as [|Hrun]; [discriminate|].
        destruct (Z.lt_ge_cases SIZE_MAX (cap s + BUFSIZ)) as [Hov|Hfit].
        + rewrite stack_push_at_ceiling in Hrun by lia. discriminate.
        + rewrite stack_push_linear in Hrun by lia.
          eapply grow_tail_success_wf in Hrun as (Hwf1 & Hc1 & Hs1); eauto; [|lia].
          split; [exact Hwf1|]. split; [exact Hs1|]. rewrite Hc1.
          rewrite half_max in Hhi. rewrite SIZE_MAX_eq in *.
          apply Z.div_lt_upper_bound; lia. }
    destruct Hgrown as (Hwf1 & Hs1 & Hquarter).
    destruct (pops_no_shrink v s1 m1 Hwf1) as [Hg Hs]; [lia|right; lia|].
    replace (size s1 - 1) with (size s) in Hg, Hs by lia. eauto.
  - intros Hn q s1 m1 Hrun v.
    destruct (pops_shrink_granted r s m Hwf Hn)
      as (p & m' & Hg & Hs & Hwf' & _).
    destruct (shrink_bounds s (size s - 1)) as (Hhalf & _); try lia.
    assert (Heq : (s1, m1) = (Hdr p (size s - 1) (cap s / 2) (memb_size s), m')).
    { rewrite Hg, Hs in Hrun. destruct Hrun; congruence. }
    injection Heq as -> ->.
    destruct (push_with_room BUFSIZ v _ elem m' Hwf')
      as (m2 & Hpg & Hps & _ & Hcalls & _); simpl; try lia.
    exists m2. simpl in *.
    replace (size s - 1 + 1) with (size s) in Hpg, Hps by lia. auto.
Qed.

Lemma growth_and_shrink_do_not_alternate_witness :
  exists q,
    gstack_pop Refuse (Hdr (Ptr 1 0) 5 8 1)
      (Mem (<[1%positive := splice (resized 8 buf4) 4 [b2]]> {[1%positive := resized 8 buf4]})
           2 [CRealloc (Ptr 1 0) 8])
    = Some ((Some q, set_size (Hdr (Ptr 1 0) 5 8 1) 4),
            Mem (<[1%positive := splice (resized 8 buf4) 4 [b2]]> {[1%positive := resized 8 buf4]})
                2 [CRealloc (Ptr 1 0) 8]).
Proof.
  destruct (growth_and_shrink_do_not_alternate 8192 false full4 [b2] (mem_of buf4))
    as [Hgrow _].
  - exact full4_wf.
  - simpl; lia.
  - rewrite SIZE_MAX_eq; lia.
  - destruct (Hgrow eq_refl (Hdr (Ptr 1 0) 5 8 1)
                (Mem (<[1%positive := splice (resized 8 buf4) 4 [b2]]>
                        {[1%positive := resized 8 buf4]}) 2 [CRealloc (Ptr 1 0) 8]))
      with (v := Refuse) as (q & Hg & _).
    + left. vm_compute. reflexivity.
    + exists q. exact Hg.
Defined.

(** ** Counting elements along a trace *)

Lemma copy_in_size s elem m b s' m' :
  copy_in s elem m = Some ((b, s'), m') -> 0 <= size s < SIZE_MAX ->
  b = true /\ size s' = size s + 1 /\ cap s' = cap s.
Proof.
  unfold copy_in, bind, ret. intros Hrun Hs.
  destruct (memcpy _ elem (memb_size s) m) as [[[] m1]|]; [|discriminate].
  injection Hrun as <- <- <-. simpl.
  unfold sz_add. rewrite wrap_small by lia.
  destruct (Z.eqb_spec (size s + 1) 0); [lia|]. auto.
Qed.

Lemma grow_tail_size v s elem m b s' m' :
  grow_tail v s elem m = Some ((b, s'), m') -> 0 <= size s < SIZE_MAX ->
  cap s' = cap s /\ size s' = size s + (if b then 1 else 0).
Proof.
  unfold grow_tail, bind, ret, undefined. intros Hrun Hs.
  destruct (memb_size s =? 0); [discriminate|].
  destruct (cap s >? SIZE_MAX / memb_size s).
  - injection Hrun as <- <- <-. lia.
  - destruct (realloc v (data s) _ m) as [[[q|] m1]|]; [| |discriminate].
    + apply copy_in_size in Hrun as (-> & Hs' & Hc'); [|exact Hs]. auto.
    + injection Hrun as <- <- <-. lia.
Qed.

Lemma gstack_push_size v s elem m b s' m' :
  bounded (SIZE_MAX - 1) s ->
  gstack_push v s elem m = Some ((b, s'), m') ->
  bounded (SIZE_MAX - 1) s' /\ size s' = size s + (if b then 1 else 0).
Proof.
  intros (Hc & Hs & Htop). unfold gstack_push, bounded.
  destruct (Z.geb_spec (size s) (cap s)) as [Hfull|Hroom].
  - destruct (Z.gtb_spec (cap s) (SIZE_MAX / 2)) as [Hhi|Hlo].
    + intros [= <- <- <-]. lia.
    + intros Hrun.
      apply (grow_tail_size v (set_cap s _)) in Hrun as [Hc' Hs']; [|simpl; lia].
      simpl in *. unfold sz_mul in Hc'.
      rewrite half_max in Hlo. rewrite SIZE_MAX_eq in *.
      rewrite wrap_small in Hc' by (rewrite SIZE_MAX_eq; lia).
      destruct b; lia.
  - intros Hrun. apply copy_in_size in Hrun as (-> & Hs' & Hc'); lia.
Qed.

Lemma stack_push_size BUFSIZ v s elem m b s' m' :
  0 < BUFSIZ <= SIZE_MAX -> bounded SIZE_MAX s ->
  stack_push BUFSIZ v s elem m = Some ((b, s'), m') ->
  bounded SIZE_MAX s' /\ size s' = size s + (if b then 1 else 0).
Proof.
  intros HB (Hc & Hs & Htop). unfold stack_push, bounded.
  destruct (Z.geb_spec (size s) (cap s)) as [Hfull|Hroom].
  - destruct (Z.gtb_spec (cap s) (SIZE_MAX / 2)) as [Hhi|Hlo].
    + destruct (Z.ltb_spec (sz_add (cap s) BUFSIZ) (cap s)) as [Hov|Hfit].
      * intros [= <- <- <-]. lia.
      * assert (Hsum : cap s + BUFSIZ <= SIZE_MAX).
        { destruct (Z.le_gt_cases (cap s + BUFSIZ) SIZE_MAX) as [|Hbig]; [assumption|].
          exfalso. unfold sz_add, wrap in Hfit.
          rewrite <- (Z.mod_unique (cap s + BUFSIZ) (SIZE_MAX + 1) 1
                        (cap s + BUFSIZ - (SIZE_MAX + 1))) in Hfit;
            rewrite SIZE_MAX_eq in *; lia. }
        intros Hrun.
        apply (grow_tail_size v (set_cap s _)) in Hrun as [Hc' Hs'];
          [|simpl; lia].
        simpl in *.
        unfold sz_add in Hc'. rewrite wrap_small in Hc' by lia.
        destruct b; lia.
    + intros Hrun.
      apply (grow_tail_size v (set_cap s _)) in Hrun as [Hc' Hs'];
        [|simpl; rewrite half_max in Hlo; rewrite SIZE_MAX_eq in *; lia].
      simpl in *. unfold sz_mul in Hc'.
      rewrite half_max in Hlo. rewrite SIZE_MAX_eq in *.
      rewrite wrap_small in Hc' by (rewrite SIZE_MAX_eq; lia).
      destruct b; lia.
  - intros Hrun. apply copy_in_size in Hrun as (-> & Hs' & Hc'); lia.
Qed.

Lemma quarter_half c n : 0 < n <= c / 4 -> n <= c / 2 /\ 1 <= c / 2 <= c.
Proof.
  intros Hn.
  assert (4 * (c / 4) <= c) by (apply Z.mul_div_le; lia).
  assert (2 * (c / 2) <= c) by (apply Z.mul_div_le; lia).
  assert (c < 2 * (c / 2) + 2).
  { pose proof (Z.mod_pos_bound c 2). pose proof (Z.div_mod c 2). lia. }
  lia.
Qed.

Lemma stack_pop_size v s m q s' m' :
  bounded SIZE_MAX s ->
  stack_pop v s m = Some ((q, s'), m') ->
  bounded SIZE_MAX s' /\
  size s' = size s + (match q with Some _ => -1 | None => 0 end).
Proof.
  intros (Hc & Hs & Htop). unfold stack_pop, stack_is_empty, bind, ret, bounded.
  destruct (Z.eqb_spec (size s) 0) as [H0|H0].
  - intros [= <- <- <-]. lia.
  - unfold sz_sub. rewrite wrap_small by lia. simpl.
    destruct (Z.eqb_spec (size s - 1) 0) as [Hn0|Hn0]; simpl.
    + intros [= <- <- <-]. simpl. lia.
    + destruct (Z.leb_spec (size s - 1) (cap s / 4)) as [Hq|Hq].
      * destruct (quarter_half (cap s) (size s - 1)) as [? ?]; [lia|].
        destruct (realloc v (data s) _ m) as [[[p|] m1]|]; [| |discriminate];
          intros [= <- <- <-]; simpl; lia.
      * intros [= <- <- <-]. simpl. lia.
Qed.

Lemma gstack_pop_size v s m q s' m' :
  bounded (SIZE_MAX - 1) s ->
  gstack_pop v s m = Some ((q, s'), m') ->
  bounded (SIZE_MAX - 1) s' /\
  size s' = size s + (match q with Some _ => -1 | None => 0 end).
Proof.
  intros (Hc & Hs & Htop). unfold gstack_pop, gstack_is_empty, bind, ret, bounded.
  destruct (Z.eqb_spec (size s) 0) as [H0|H0].
  - intros [= <- <- <-]. lia.
  - unfold sz_sub. rewrite wrap_small by (rewrite SIZE_MAX_eq in *; lia). simpl.
    destruct (Z.eqb_spec (size s - 1) 0) as [Hn0|Hn0]; simpl.
    + intros [= <- <- <-]. simpl. lia.
    + destruct (Z.leb_spec (size s - 1) (cap s / 4)) as [Hq|Hq].
      * destruct (quarter_half (cap s) (size s - 1)) as [? ?]; [lia|].
        destruct (Z.eqb_spec (cap s mod 2) 0) as [Hev|Hodd]; simpl.
        -- destruct (realloc v (data s) _ m) as [[[p|] m1]|]; [| |discriminate];
             intros [= <- <- <-]; simpl; lia.
        -- assert (Hc1 : sz_add (cap s) 1 = cap s + 1 /\ cap s + 1 <= SIZE_MAX - 1).
           { unfold sz_add. rewrite wrap_small by (rewrite SIZE_MAX_eq in *; lia).
             split; [reflexivity|].
             pose proof (Z.mod_pos_bound (cap s) 2).
             pose proof (Z.div_mod (cap s) 2). rewrite SIZE_MAX_eq in *. lia. }
           destruct Hc1 as [Hc1 Hc1'].
           destruct (realloc v (data _) _ m) as [[[p|] m1]|]; [| |discriminate];
             intros [= <- <- <-]; simpl; rewrite ?Hc1; lia.
      * intros [= <- <- <-]. simpl. lia.
Qed.

Lemma gstack_run_size os :
  forall s m rs s' m',
    bounded (SIZE_MAX - 1) s ->
    gstack_run os s m = Some ((rs, s'), m') ->
    size s' = size s + net_total os rs /\ length rs = length os /\
    bounded (SIZE_MAX - 1) s'.
Proof.
  induction os as [|o os IH]; intros s m rs s' m' Hb; simpl.
  - intros [= <- <- <-]. simpl. split; [lia|]. auto.
  - unfold bind, ret.
    destruct (gstack_step o s m) as [[[r s1] m1]|] eqn:Hstep; [|discriminate].
    simpl. destruct (gstack_run os s1 m1) as [[[rs1 s2] m2]|] eqn:Hrun; [|discriminate].
    intros [= <- <- <-]. simpl.
    assert (Hone : bounded (SIZE_MAX - 1) s1 /\ size s1 = size s + net o r).
    { destruct o as [v elem|v| | | |]; unfold gstack_step, bind, ret in Hstep.
      - destruct (gstack_push v s elem m) as [[[b sx] mx]|] eqn:Hp; [|discriminate].
        injection Hstep as <- <- <-.
        apply gstack_push_size in Hp as [? ?]; [|assumption]. simpl.
        destruct b; auto.
      - destruct (gstack_pop v s m) as [[[q sx] mx]|] eqn:Hp; [|discriminate].
        injection Hstep as <- <- <-.
        apply gstack_pop_size in Hp as [? ?]; [|assumption]. simpl.
        destruct q; auto.
      - injection Hstep as <- <- <-. simpl. split; [assumption|lia].
      - injection Hstep as <- <- <-. simpl. split; [assumption|lia].
      - injection Hstep as <- <- <-. simpl. split; [assumption|lia].
      - injection Hstep as <- <- <-. simpl. split; [assumption|lia]. }
    destruct Hone as [Hb1 Hs1].
    destruct (IH s1 m1 rs1 s2 m2 Hb1 Hrun) as (Hs2 & Hlen & Hb2).
    split; [lia|]. split; [by rewrite Hlen|assumption].
Qed.

Lemma stack_run_size BUFSIZ os :
  0 < BUFSIZ <= SIZE_MAX ->
  forall s m rs s' m',
    bounded SIZE_MAX s ->
    stack_run BUFSIZ os s m = Some ((rs, s'), m') ->
    size s' = size s + net_total os rs /\ length rs = length os /\
    bounded SIZE_MAX s'.
Proof.
  intros HB. induction os as [|o os IH]; intros s m rs s' m' Hb; simpl.
  - intros [= <- <- <-]. simpl. split; [lia|]. auto.
  - unfold bind, ret.
    destruct (stack_step BUFSIZ o s m) as [[[r s1] m1]|] eqn:Hstep; [|discriminate].
    simpl. destruct (stack_run BUFSIZ os s1 m1) as [[[rs1 s2] m2]|] eqn:Hrun;
      [|discriminate].
    intros [= <- <- <-]. simpl.
    assert (Hone : bounded SIZE_MAX s1 /\ size s1 = size s + net o r).
    { destruct o as [v elem|v| | | |]; unfold stack_step, bind, ret in Hstep.
      - destruct (stack_push BUFSIZ v s elem m) as [[[b sx] mx]|] eqn:Hp; [|discriminate].
        injection Hstep as <- <- <-.
        apply stack_push_size in Hp as [? ?]; [|assumption..]. simpl.
        destruct b; auto.
      - destruct (stack_pop v s m) as [[[q sx] mx]|] eqn:Hp; [|discriminate].
        injection Hstep as <- <- <-.
        apply stack_pop_size in Hp as [? ?]; [|assumption]. simpl.
        destruct q; auto.
      - injection Hstep as <- <- <-. simpl. split; [assumption|lia].
      - injection Hstep as <- <- <-. simpl. split; [assumption|lia].
      - injection Hstep as <- <- <-. simpl. split; [assumption|lia].
      - injection Hstep as <- <- <-. simpl. split; [assumption|lia]. }
    destruct Hone as [Hb1 Hs1].
    destruct (IH s1 m1 rs1 s2 m2 Hb1 Hrun) as (Hs2 & Hlen & Hb2).
    split; [lia|]. split; [by rewrite Hlen|assumption].
Qed.

(** X11: along any trace that runs to its end, under any allocator answers
    and including failed pushes and pops of the empty stack, the size the
    stack reports is the initial size plus the number of pushes that
    returned true minus the number of pops that returned an element, and
    [size <= cap] is kept; gstack.h from a capacity below SIZE_MAX, stack.h
    from any capacity. *)
Theorem size_counts_pushes_minus_pops (BUFSIZ : Z) (os : list op)
    (s : gstack) (m : mem) (rs : list result) (s' : gstack) (m' : mem) :
  0 < BUFSIZ <= SIZE_MAX ->
  (bounded (SIZE_MAX - 1) s ->
   gstack_run os s m = Some ((rs, s'), m') ->
   gstack_size s' = gstack_size s + net_total os rs /\
   length rs = length os /\ size s' <= cap s') /\
  (bounded SIZE_MAX s ->
   stack_run BUFSIZ os s m = Some ((rs, s'), m') ->
   stack_size s' = stack_size s + net_total os rs /\
   length rs = length os /\ size s' <= cap s').
Proof.
  intros HB. split; intros Hb Hrun.
  - destruct (gstack_run_size os s m rs s' m' Hb Hrun) as (Hs & Hl & _ & ? & _).
    unfold gstack_size. split; [exact Hs|]. split; [exact Hl|lia].
  - destruct (stack_run_size BUFSIZ os HB s m rs s' m' Hb Hrun) as (Hs & Hl & _ & ? & _).
    unfold stack_size. split; [exact Hs|]. split; [exact Hl|lia].
Qed.

Lemma size_counts_pushes_minus_pops_witness :
  exists rs s' m',
    gstack_run [OPop (Grant false); OPush Refuse [b1]; OPeek] three_of_8 (mem_of buf8)
      = Some ((rs, s'), m') /\
    gstack_size s' = 3 + net_total [OPop (Grant false); OPush Refuse [b1]; OPeek] rs.
Proof.
  assert (H : exists rs s' m',
             gstack_run [OPop (Grant false); OPush Refuse [b1]; OPeek]
               three_of_8 (mem_of buf8) = Some ((rs, s'), m'))
    by (vm_compute; eauto).
  destruct H as (rs & s' & m' & H). exists rs, s', m'. split; [exact H|].
  destruct (size_counts_pushes_minus_pops 8192
              [OPop (Grant false); OPush Refuse [b1]; OPeek]
              three_of_8 (mem_of buf8) rs s' m') as [Hg _].
  - rewrite SIZE_MAX_eq; lia.
  - apply Hg in H as [Hs _]; [exact Hs|].
    unfold bounded; simpl; rewrite SIZE_MAX_eq; lia.
Defined.

(** ** Object representations *)

Lemma byte_val_of z : 0 <= z < 256 -> byte_val (byte_of z) = z.
Proof.
  intros Hz. unfold byte_val, byte_of.
  destruct (Byte.of_N (Z.to_N z)) as [b|] eqn:E; simpl.
  - apply Byte.to_of_N in E. rewrite E. lia.
  - apply Byte.of_N_None_iff in E. lia.
Qed.

Lemma length_encode n z : length (encode n z) = n.
Proof. revert z. induction n as [|n IH]; intros z; simpl; [|rewrite IH]; reflexivity. Qed.

Lemma decode_encode n z : 0 <= z < 256 ^ Z.of_nat n -> decode (encode n z) = Some z.
Proof.
  revert z. induction n as [|n IH]; intros z Hz.
  - simpl in *. f_equal. lia.
  - rewrite Nat2Z.inj_succ, Z.pow_succ_r in Hz by lia.
    cbn [encode decode]. rewrite IH.
    + rewrite byte_val_of by (apply Z.mod_pos_bound; lia).
      f_equal. pose proof (Z.div_mod z 256). lia.
    + split; [apply Z.div_pos; lia|apply Z.div_lt_upper_bound; lia].
Qed.

Lemma decode_int_encode z : 0 <= z < 2 ^ 31 -> decode_int (encode 4 z) = Some z.
Proof.
  intros Hz. unfold decode_int.
  rewrite decode_encode by (change (256 ^ Z.of_nat 4) with 4294967296; lia).
  destruct (Z.ltb_spec z (2 ^ 31)); [reflexivity|lia].
Qed.

Lemma upfrom_snoc i k : upfrom i (S k) = upfrom i k ++ [i + Z.of_nat k].
Proof.
  revert i. induction k as [|k IH]; intros i.
  - simpl. f_equal. lia.
  - change (upfrom i (S (S k))) with (i :: upfrom (i + 1) (S k)).
    rewrite IH. simpl. do 3 f_equal. lia.
Qed.

Lemma length_upfrom i k : length (upfrom i k) = k.
Proof. revert i. induction k as [|k IH]; intros i; simpl; [|rewrite IH]; reflexivity. Qed.

(** ** Running the test programs *)

Lemma bind_Some {A B} (c : M A) (k : A -> M B) m a m1 :
  c m = Some (a, m1) -> bind c k m = k a m1.
Proof. intros H. unfold bind. by rewrite H. Qed.

(** A push whose reallocation, if any, is granted and cannot overflow. *)
Lemma push_granted BUFSIZ r s elem m :
  wf s m -> memb_size s <= Z.of_nat (length elem) -> 0 < BUFSIZ <= SIZE_MAX ->
  2 * cap s * memb_size s <= SIZE_MAX ->
  exists s' m',
    gstack_push (Grant r) s elem m = Some ((true, s'), m') /\
    stack_push BUFSIZ (Grant r) s elem m = Some ((true, s'), m') /\
    cap s' <= Z.max (cap s) (2 * size s).
Proof.
  intros Hwf Hel HB Hfit.
  pose proof (wf_size _ _ Hwf) as Hsz. pose proof (wf_cap _ _ Hwf) as Hcap.
  pose proof (wf_memb _ _ Hwf) as Hmemb.
  destruct (Z.lt_ge_cases (size s) (cap s)) as [Hroom|Hfull].
  - destruct (push_with_room BUFSIZ (Grant r) s elem m Hwf Hroom Hel)
      as (m1 & Hg & Hs & _).
    do 2 eexists. split; [exact Hg|]. split; [exact Hs|]. simpl. lia.
  - assert (Hlo : cap s <= SIZE_MAX / 2) by (apply Z.div_le_lower_bound; nia).
    destruct (grown_granted r s (2 * cap s) elem m)
      as (s' & m' & Hrun & _ & Hc' & _); auto; try lia.
    exists s', m'. rewrite gstack_push_doubles, stack_push_doubles by lia.
    split; [exact Hrun|]. split; [exact Hrun|]. lia.
Qed.

Section ProgramProofs.

Variable oracle : nat -> verdict.
Variable m0 : mem.
Variable sp : ptr.
Hypothesis Hm0 : alloc_ok m0.

Lemma gstack_fill_ok :
  always_grants oracle ->
  forall k i s m es fuel,
    i + Z.of_nat k = 200000 -> (k <= fuel)%nat ->
    repr s m es -> size s = i -> memb_size s = 8 ->
    cap s <= Z.max 10000 (2 * size s) -> owned m0 sp s m ->
    exists s' m',
      gstack_main_fill oracle fuel i s m = Some (Some s', m') /\
      repr s' m' (es ++ map (encode 8) (upfrom i k)) /\
      memb_size s' = 8 /\ owned m0 sp s' m'.
Proof.
  intros Hgr. induction k as [|k IH]; intros i s m es fuel Hik Hfuel Hrepr Hsz Hmemb Hcapb Hown.
  - exists s, m. simpl. rewrite app_nil_r. split; [|auto].
    destruct fuel; cbn [gstack_main_fill];
      rewrite (proj2 (Z.ltb_ge i 200000)) by lia; reflexivity.
  - destruct fuel as [|fuel]; [lia|].
    pose proof (repr_wf _ _ _ Hrepr) as Hwf.
    pose proof (wf_size _ _ Hwf) as Hsize.
    cbn [gstack_main_fill]. rewrite (proj2 (Z.ltb_lt i 200000)) by lia.
    erewrite bind_Some by reflexivity.
    destruct (oracle (length (calls m))) as [|r] eqn:Hv; [by apply Hgr in Hv|].
    assert (Hlen : Z.of_nat (length (encode 8 i)) = 8) by (by rewrite length_encode).
    destruct (push_granted 8192 r s (encode 8 i) m Hwf)
      as (s1 & m1 & Hpush & _ & Hcap1); rewrite ?SIZE_MAX_eq; try lia.
    erewrite bind_Some by exact Hpush. cbn [fst snd].
    destruct (push_effect 8192 (Grant r) s (encode 8 i) m true s1 m1 Hwf)
      as (Hmemb1 & Hwf1 & Hsz1 & Hnew & Hold);
      rewrite ?SIZE_MAX_eq; auto; try lia.
    rewrite Hmemb in Hnew.
    rewrite take_ge in Hnew by (rewrite length_encode; lia).
    assert (Hrepr1 : repr s1 m1 (es ++ [encode 8 i])).
    { eapply repr_snoc; eauto; rewrite ?Hmemb; auto; congruence. }
    unfold sz_add. rewrite wrap_small by (rewrite SIZE_MAX_eq; lia).
    destruct (IH (i + 1) s1 m1 (es ++ [encode 8 i]) fuel)
      as (s' & m' & Hrun & Hrepr' & Hmemb' & Hown'); try lia; auto; try congruence.
    + eapply owned_frame; eauto using gstack_push_frame.
    + exists s', m'. rewrite Hrun. split; [reflexivity|].
      rewrite <- app_assoc in Hrepr'. auto.
Qed.

Lemma gstack_drain_ok :
  always_grants oracle ->
  forall k s m fuel,
    (k <= fuel)%nat -> Z.of_nat k <= 200000 ->
    repr s m (map (encode 8) (upfrom 0 k)) -> memb_size s = 8 ->
    owned m0 sp s m ->
    exists s' m',
      gstack_main_drain oracle fuel (sz_sub (Z.of_nat k) 1) s m
        = Some (Some s', m') /\
      repr s' m' [] /\ owned m0 sp s' m'.
Proof.
  intros Hgr. induction k as [|k IH]; intros s m fuel Hfuel Hk Hrepr Hmemb Hown.
  - exists s, m. split; [|auto].
    change (sz_sub (Z.of_nat 0) 1) with SIZE_MAX.
    destruct fuel; cbn [gstack_main_drain];
      rewrite Z.ltb_irrefl; reflexivity.
  - destruct fuel as [|fuel]; [lia|].
    rewrite upfrom_snoc, map_app in Hrepr. cbn [map] in Hrepr.
    rewrite Z.add_0_l in Hrepr.
    pose proof (repr_wf _ _ _ Hrepr) as Hwf.
    destruct (repr_top _ _ _ _ Hrepr) as (Hpos & Hn & Htop).
    rewrite length_map, length_upfrom in Hn.
    assert (Hi : sz_sub (Z.of_nat (S k)) 1 = Z.of_nat k)
      by (unfold sz_sub; rewrite wrap_small by (rewrite SIZE_MAX_eq; lia); lia).
    rewrite Hi. cbn [gstack_main_drain].
    rewrite (proj2 (Z.ltb_lt (Z.of_nat k) SIZE_MAX)) by (rewrite SIZE_MAX_eq; lia).
    destruct (peek_nonempty s m Hwf Hpos) as [Hpeek _].
    assert (Hdec : decode (encode 8 (Z.of_nat k)) = Some (Z.of_nat k)).
    { apply decode_encode. change (256 ^ Z.of_nat 8) with (SIZE_MAX + 1).
      rewrite SIZE_MAX_eq. lia. }
    assert (Hread : read_size_t (Some (slot s (size s - 1))) m = Some (Z.of_nat k, m)).
    { unfold read_size_t, deref, bind, sizeof_size_t. rewrite <- Hmemb, Htop.
      by rewrite Hdec. }
    rewrite Hpeek. erewrite bind_Some by exact Hread.
    rewrite Z.eqb_refl. cbn [negb].
    erewrite bind_Some by reflexivity.
    destruct (oracle (length (calls m))) as [|r] eqn:Hv; [by apply Hgr in Hv|].
    destruct (gstack_pop_effect (Grant r) s m Hwf Hpos)
      as (s1 & m1 & Hpop & Hsz1 & Hmemb1 & Hold & Hwf1).
    erewrite bind_Some by exact Hpop. cbn [fst snd].
    assert (Hread1 : read_size_t (Some (slot s1 (size s - 1))) m1 = Some (Z.of_nat k, m1)).
    { unfold read_size_t, deref, bind, sizeof_size_t.
      rewrite <- Hmemb, Hold, Htop by lia. by rewrite Hdec. }
    erewrite bind_Some by exact Hread1.
    rewrite Z.eqb_refl. cbn [negb].
    assert (Hrepr1 : repr s1 m1 (map (encode 8) (upfrom 0 k))).
    { eapply repr_init; eauto; apply Hwf1; left; discriminate. }
    apply (IH s1 m1 fuel); try lia; auto; try congruence.
    eapply owned_frame; eauto using gstack_pop_frame.
Qed.

End ProgramProofs.

Lemma repr_empty s m : repr s m [] -> size s = 0.
Proof. by intros (_ & Hsz & _). Qed.

Lemma first_create_refused v1 v2 m :
  gstack_create v1 v2 (SIZE_MAX - 1000) sizeof_size_t m = Some (None, m).
Proof.
  unfold gstack_create.
  rewrite create_guard_true; [reflexivity| | |right; right];
    unfold sizeof_size_t; rewrite ?SIZE_MAX_eq; lia.
Qed.

(** X12: the test program of gstack.h. Under any allocator that grants every
    request, wherever it places or moves the blocks, and started in a memory
    whose fresh blocks are unused, [main] passes every assertion: the
    oversized create is refused, the 200000 pushes succeed, every peek and
    pop reads the expected counter value in last-in-first-out order, the
    stack ends empty, and main returns EXIT_SUCCESS with exactly the blocks
    live that were live at the start. *)
Theorem gstack_main_succeeds (oracle : nat -> verdict) (m0 : mem) :
  always_grants oracle -> alloc_ok m0 ->
  exists m',
    gstack_main oracle m0 = Some (Exit EXIT_SUCCESS, m') /\
    blocks m' = blocks m0.
Proof.
  intros Hgr H0. unfold gstack_main.
  do 2 erewrite bind_Some by reflexivity.
  erewrite bind_Some by apply first_create_refused.
  rewrite bool_decide_eq_false_2 by apply is_Some_None.
  do 2 erewrite bind_Some by reflexivity.
  destruct (oracle (length (calls m0))) as [|r1] eqn:Hv1; [by apply Hgr in Hv1|].
  destruct (oracle (S (length (calls m0)))) as [|r2] eqn:Hv2; [by apply Hgr in Hv2|].
  destruct (create_granted_owned r1 r2 10000 sizeof_size_t m0 H0)
    as (sp & s & m & Hcreate & Hwf & Hsz & Hcap & Hmemb & Hown);
    unfold sizeof_size_t in *; rewrite ?SIZE_MAX_eq; try lia.
  erewrite bind_Some by exact Hcreate. cbv beta iota.
  assert (Hfull : gstack_is_full s = false)
    by (unfold gstack_is_full; rewrite Hsz, Hcap; reflexivity).
  rewrite Hfull.
  assert (Hrepr : repr s m []).
  { split; [exact Hwf|]. split; [exact Hsz|]. intros i x Hi.
    by rewrite lookup_nil in Hi. }
  destruct (gstack_fill_ok oracle m0 sp H0 Hgr (Z.to_nat 200000) 0 s m []
              (Z.to_nat 200000))
    as (s1 & m1 & Hfill & Hrepr1 & Hmemb1 & Hown1); auto; try lia.
  erewrite bind_Some by exact Hfill. cbv beta iota.
  rewrite app_nil_l in Hrepr1.
  assert (Hsz1 : size s1 = 200000).
  { destruct Hrepr1 as (_ & Hs & _). rewrite Hs, length_map, length_upfrom. lia. }
  assert (Hemp : gstack_is_empty s1 = false)
    by (unfold gstack_is_empty; rewrite Hsz1; reflexivity).
  rewrite Hemp. unfold gstack_size at 1. rewrite Hsz1, Z.eqb_refl. cbn [negb].
  assert (Htop : read_size_t (gstack_peek s1) m1 = Some (199999, m1)).
  { assert (Hsnoc : repr s1 m1 (map (encode 8) (upfrom 0 (Z.to_nat 199999))
                                  ++ [encode 8 199999])).
    { replace (Z.to_nat 200000) with (S (Z.to_nat 199999)) in Hrepr1 by lia.
      rewrite upfrom_snoc, map_app in Hrepr1. cbn [map] in Hrepr1.
      by rewrite Z2Nat.id in Hrepr1 by lia. }
    destruct (repr_top _ _ _ _ Hsnoc) as (Hpos & _ & Hload).
    destruct (peek_nonempty s1 m1 (repr_wf _ _ _ Hsnoc) Hpos) as [Hpeek _].
    rewrite Hpeek. unfold read_size_t, deref, bind, sizeof_size_t.
    rewrite <- Hmemb1, Hload.
    rewrite decode_encode; [reflexivity|].
    change (256 ^ Z.of_nat 8) with (SIZE_MAX + 1). rewrite SIZE_MAX_eq. lia. }
  erewrite bind_Some by exact Htop.
  rewrite Z.eqb_refl. cbn [negb].
  destruct (gstack_drain_ok oracle m0 sp H0 Hgr (Z.to_nat 200000) s1 m1
              (Z.to_nat 200000))
    as (s2 & m2 & Hdrain & Hrepr2 & Hown2); auto; try lia.
  assert (Hidx : sz_sub (Z.of_nat (Z.to_nat 200000)) 1 = 199999)
    by (rewrite Z2Nat.id by lia; reflexivity).
  rewrite Hidx in Hdrain.
  erewrite bind_Some by exact Hdrain. cbv beta iota.
  pose proof (repr_empty _ _ Hrepr2) as Hsz2.
  unfold gstack_is_empty, gstack_size. rewrite Hsz2. cbn [Z.eqb negb].
  destruct (destroy_owned m0 sp s2 m2 H0 Hown2) as (m3 & Hdestroy & Hblocks & _).
  erewrite bind_Some by exact Hdestroy.
  exists m3. split; [reflexivity|exact Hblocks].
Qed.

Lemma gstack_main_succeeds_witness :
  exists m',
    gstack_main (fun _ => Grant true) (Mem ∅ 1 []) = Some (Exit EXIT_SUCCESS, m') /\
    blocks m' = ∅.
Proof.
  apply (gstack_main_succeeds (fun _ => Grant true) (Mem ∅ 1 [])).
  - intros k. discriminate.
  - intros b Hb. apply lookup_empty.
Defined.

Section StackProgramProofs.

Variable oracle : nat -> verdict.
Variable BUFSIZ : Z.
Variable m0 : mem.
Variable sp : ptr.
Hypothesis Hm0 : alloc_ok m0.
Hypothesis HBUFSIZ : 0 < BUFSIZ <= SIZE_MAX.

Lemma stack_fill_ok :
  forall k i s m es fuel,
    i + Z.of_nat k = 150 -> (k <= fuel)%nat ->
    repr s m es -> size s = i -> memb_size s = 4 -> cap s = 1000 ->
    owned m0 sp s m ->
    exists s' m',
      stack_main_fill oracle BUFSIZ fuel i s m = Some (Some s', m') /\
      repr s' m' (es ++ map (encode 4) (upfrom i k)) /\
      memb_size s' = 4 /\ cap s' = 1000 /\ calls m' = calls m /\
      owned m0 sp s' m'.
Proof.
  induction k as [|k IH]; intros i s m es fuel Hik Hfuel Hrepr Hsz Hmemb Hcap Hown.
  - exists s, m. simpl. rewrite app_nil_r. split; [|auto 6].
    destruct fuel; cbn [stack_main_fill];
      rewrite (proj2 (Z.ltb_ge i 150)) by lia; reflexivity.
  - destruct fuel as [|fuel]; [lia|].
    pose proof (repr_wf _ _ _ Hrepr) as Hwf.
    cbn [stack_main_fill]. rewrite (proj2 (Z.ltb_lt i 150)) by lia.
    erewrite bind_Some by reflexivity.
    assert (Hlen : Z.of_nat (length (encode 4 i)) = 4) by (by rewrite length_encode).
    destruct (push_with_room BUFSIZ (oracle (length (calls m))) s (encode 4 i) m Hwf)
      as (m1 & _ & Hpush & Hwf1 & Hcalls & _ & _ & Hnew & Hold); try lia.
    erewrite bind_Some by exact Hpush. cbn [fst snd].
    rewrite Hmemb in Hnew.
    rewrite take_ge in Hnew by (rewrite length_encode; lia).
    assert (Hrepr1 : repr (set_size s (size s + 1)) m1 (es ++ [encode 4 i])).
    { eapply repr_snoc; eauto; rewrite ?Hmemb; auto. }
    destruct (IH (i + 1) (set_size s (size s + 1)) m1 (es ++ [encode 4 i]) fuel)
      as (s' & m' & Hrun & Hrepr' & Hmemb' & Hcap' & Hcalls' & Hown');
      try lia; auto.
    + simpl. lia.
    + eapply owned_frame; eauto using stack_push_frame.
    + exists s', m'. rewrite Hrun. split; [reflexivity|].
      rewrite <- app_assoc in Hrepr'.
      split; [exact Hrepr'|]. split; [exact Hmemb'|]. split; [exact Hcap'|].
      split; [by rewrite Hcalls', Hcalls|exact Hown'].
Qed.


End StackProgramProofs.

Lemma upfrom_0_150_top :
  map (encode 4) (upfrom 0 150)
  = map (encode 4) (upfrom 0 149) ++ [encode 4 149].
Proof. rewrite (upfrom_snoc 0 149), map_app. reflexivity. Qed.



Lemma bind_None {A B} (c : M A) (k : A -> M B) m :
  c m = None -> bind c k m = None.
Proof. intros H. unfold bind. by rewrite H. Qed.

(** X14: the test program of stack.h has undefined behaviour under an
    allocator that grants every request but moves the buffer when the first
    pop shrinks it (its third request): the assertion on the popped value
    reads through the pointer stack_pop computed before the reallocation,
    which points into the released block. *)
Theorem stack_main_undefined_if_shrink_relocates (oracle : nat -> verdict)
    (BUFSIZ : Z) (m0 : mem) :
  always_grants oracle -> alloc_ok m0 -> 0 < BUFSIZ <= SIZE_MAX ->
  oracle (length (calls m0) + 2)%nat = Grant true ->
  stack_main oracle BUFSIZ m0 = None.
Proof.
  intros Hgr H0 HB Hmove. unfold stack_main.
  do 2 erewrite bind_Some by reflexivity.
  erewrite bind_Some by apply first_create_refused.
  rewrite bool_decide_eq_false_2 by apply is_Some_None.
  do 2 erewrite bind_Some by reflexivity.
  destruct (oracle (length (calls m0))) as [|r1] eqn:Hv1; [by apply Hgr in Hv1|].
  destruct (oracle (S (length (calls m0)))) as [|r2] eqn:Hv2; [by apply Hgr in Hv2|].
  destruct (create_granted_owned r1 r2 1000 sizeof_int m0 H0)
    as (sp & s & m & Hcreate & Hwf & Hsz & Hcap & Hmemb & Hown);
    unfold sizeof_int in *; rewrite ?SIZE_MAX_eq; try lia.
  assert (Hcalls : length (calls m) = (length (calls m0) + 2)%nat).
  { destruct (create_granted r1 r2 1000 4 m0) as (mx & Hx & _ & Hc);
      rewrite ?SIZE_MAX_eq; try lia.
    rewrite Hx in Hcreate. injection Hcreate as _ _ <-.
    rewrite Hc, length_app. reflexivity. }
  erewrite bind_Some by exact Hcreate. cbv beta iota.
  assert (Hrepr : repr s m []).
  { split; [exact Hwf|]. split; [exact Hsz|]. intros i x Hi.
    by rewrite lookup_nil in Hi. }
  destruct (stack_fill_ok oracle BUFSIZ m0 sp H0 150%nat 0 s m [] 150%nat)
    as (s1 & m1 & Hfill & Hrepr1 & Hmemb1 & Hcap1 & Hcalls1 & Hown1); auto; try lia.
  erewrite bind_Some by exact Hfill. cbv beta iota.
  rewrite app_nil_l in Hrepr1.
  assert (Hsz1 : size s1 = 150).
  { destruct Hrepr1 as (_ & Hs & _). rewrite Hs, length_map, length_upfrom. lia. }
  assert (Hemp : stack_is_empty s1 = false)
    by (unfold stack_is_empty; rewrite Hsz1; reflexivity).
  rewrite Hemp. unfold stack_size at 1. rewrite Hsz1, Z.eqb_refl. cbn [negb].
  pose proof Hrepr1 as Hsnoc. rewrite upfrom_0_150_top in Hsnoc.
  pose proof (repr_wf _ _ _ Hsnoc) as Hwf1.
  destruct (repr_top _ _ _ _ Hsnoc) as (Hpos & _ & Hload).
  destruct (peek_nonempty s1 m1 Hwf1 Hpos) as [_ Hpeek].
  assert (Htop : read_int (stack_peek s1) m1 = Some (149, m1)).
  { rewrite Hpeek. unfold read_int, deref, bind, sizeof_int.
    rewrite <- Hmemb1, Hload.
    rewrite decode_int_encode by lia. reflexivity. }
  erewrite bind_Some by exact Htop.
  rewrite Z.eqb_refl. cbn [negb].
  apply bind_None.
  change 150%nat with (S 149). cbn [stack_main_drain].
  rewrite (geb_true 149 0) by lia.
  erewrite bind_Some by exact Htop.
  rewrite Z.eqb_refl. cbn [negb].
  erewrite bind_Some by reflexivity.
  rewrite Hcalls1, Hcalls, Hmove.
  assert (Hn : 0 < size s1 - 1 <= cap s1 / 4)
    by (rewrite Hsz1, Hcap1; change (1000 / 4) with 250; lia).
  destruct (pops_shrink_granted true s1 m1 Hwf1 Hn)
    as (p & m2 & _ & Hpop & _ & _ & Hp & _).
  erewrite bind_Some by exact Hpop. cbn [fst snd].
  apply bind_None. apply bind_None.
  destruct (stack_pop_frame _ _ _ _ _ _ Hpop) as (_ & _ & _ & Hmv & _).
  destruct Hown1 as (_ & _ & _ & _ & Hlt & _).
  unfold deref, load, slot. cbn [ptr_add blk data].
  destruct Hmv as [Hsame|(_ & _ & Hdead)].
  - exfalso. rewrite Hp in Hsame. cbn [blk data] in Hsame. lia.
  - rewrite Hdead by lia. reflexivity.
Qed.

Lemma stack_main_undefined_if_shrink_relocates_witness :
  stack_main (fun _ => Grant true) 8192 (Mem ∅ 1 []) = None.
Proof.
  apply (stack_main_undefined_if_shrink_relocates (fun _ => Grant true) 8192
           (Mem ∅ 1 [])).
  - intros k. discriminate.
  - intros b Hb. apply lookup_empty.
  - rewrite SIZE_MAX_eq. lia.
  - reflexivity.
Defined.

(** ** The defects in general *)

(** X15: on a full valid stack whose capacity is at most SIZE_MAX / 2, a
    push whose reallocation is refused, or whose doubled capacity trips the
    overflow guard, returns false with the doubled capacity in the header
    over the unchanged buffer, in both headers; every push after it finds
    room by the header and is undefined: it writes past the buffer. *)
Theorem failed_growth_poisons_next_push (BUFSIZ : Z) (v : verdict)
    (s : gstack) (elem : list memval) (m : mem) :
  wf s m -> size s = cap s -> cap s <= SIZE_MAX / 2 ->
  v = Refuse \/ SIZE_MAX < 2 * cap s * memb_size s ->
  exists m',
    gstack_push v s elem m = Some ((false, set_cap s (2 * cap s)), m') /\
    stack_push BUFSIZ v s elem m = Some ((false, set_cap s (2 * cap s)), m') /\
    blocks m' = blocks m /\
    forall v' elem',
      gstack_push v' (set_cap s (2 * cap s)) elem' m' = None /\
      stack_push BUFSIZ v' (set_cap s (2 * cap s)) elem' m' = None.
Proof.
  intros Hwf Hfull Hlo Hwhy.
  destruct (push_failure_after_growth BUFSIZ v s elem m Hwf Hfull Hlo Hwhy)
    as (m' & Hg & Hs & Hblocks).
  exists m'. split; [exact Hg|]. split; [exact Hs|]. split; [exact Hblocks|].
  destruct Hwf as [Hmemb Hcap Hsz Hbytes Hbase (bs & Hbs & Hlen)].
  intros v' elem'.
  assert (Hcopy : copy_in (set_cap s (2 * cap s)) elem' m' = None).
  { unfold copy_in, bind, memcpy, undefined.
    destruct ((0 <=? memb_size (set_cap s (2 * cap s)))
              && (memb_size (set_cap s (2 * cap s)) <=? Z.of_nat (length elem')))
      eqn:Hok; [|reflexivity].
    apply andb_prop in Hok as [_ Hel]. apply Z.leb_le in Hel. simpl in Hel.
    assert (Htake : Z.of_nat (length (take (Z.to_nat (memb_size s)) elem'))
                    = memb_size s) by (rewrite length_take; lia).
    unfold store. simpl. rewrite Hblocks, Hbs, Hbase, Htake. simpl.
    unfold sz_mul. rewrite wrap_small by nia.
    match goal with
    | |- context [?a && (?x <=? Z.of_nat (length bs))] =>
        replace (x <=? Z.of_nat (length bs)) with false
          by (symmetry; apply Z.leb_gt; nia)
    end.
    by rewrite andb_false_r. }
  unfold gstack_push, stack_push. rewrite geb_false by (simpl; lia).
  auto.
Qed.

Lemma failed_growth_poisons_next_push_witness :
  exists m',
    gstack_push Refuse full4 [b2] (mem_of buf4) = Some ((false, set_cap full4 (2 * cap full4)), m') /\
    stack_push 8192 Refuse full4 [b2] (mem_of buf4) = Some ((false, set_cap full4 (2 * cap full4)), m') /\
    blocks m' = blocks (mem_of buf4) /\
    forall v' elem',
      gstack_push v' (set_cap full4 (2 * cap full4)) elem' m' = None /\
      stack_push 8192 v' (set_cap full4 (2 * cap full4)) elem' m' = None.
Proof.
  apply (failed_growth_poisons_next_push 8192 Refuse full4 [b2] (mem_of buf4)).
  - exact full4_wf.
  - reflexivity.
  - simpl. rewrite half_max. lia.
  - by left.
Defined.

(** X16: gstack.h, on a valid stack of odd capacity below SIZE_MAX: when the
    shrink that pop attempts is refused, pop still returns the element, but
    the header then holds [cap + 1] over a buffer of [cap] slots, which is
    no longer a valid stack. *)
Theorem refused_odd_shrink_overstates_capacity (s : gstack) (m : mem) :
  wf s m -> 0 < size s - 1 <= cap s / 4 -> cap s mod 2 = 1 ->
  cap s < SIZE_MAX ->
  exists s' m',
    gstack_pop Refuse s m = Some ((Some (slot s (size s - 1)), s'), m') /\
    size s' = size s - 1 /\ cap s' = cap s + 1 /\ data s' = data s /\
    blocks m' = blocks m /\ ~ wf s' m'.
Proof.
  intros Hwf Hn Hodd Hlt.
  destruct (pops_shrink_refused s m Hwf Hn) as [Hg _].
  rewrite Hodd in Hg. simpl in Hg.
  unfold sz_add in Hg. pose proof (wf_cap _ _ Hwf).
  rewrite wrap_small in Hg by lia.
  do 2 eexists. split; [exact Hg|]. simpl. repeat split.
  destruct Hwf as [Hmemb Hcap Hsz Hbytes Hbase (bs & Hbs & Hlen)].
  intros [_ _ _ _ _ (bs' & Hbs' & Hlen')]. simpl in *.
  rewrite Hbs in Hbs'. injection Hbs' as <-. lia.
Qed.

Lemma three_of_9_wf : wf three_of_9 (mem_of buf9).
Proof.
  split; simpl; rewrite ?SIZE_MAX_eq; try lia.
  exists buf9. split; reflexivity.
Qed.

Lemma refused_odd_shrink_overstates_capacity_witness :
  exists s' m',
    gstack_pop Refuse three_of_9 (mem_of buf9)
      = Some ((Some (slot three_of_9 2), s'), m') /\
    size s' = 2 /\ cap s' = 10 /\ data s' = Ptr 1 0 /\
    blocks m' = blocks (mem_of buf9) /\ ~ wf s' m'.
Proof.
  apply (refused_odd_shrink_overstates_capacity three_of_9 (mem_of buf9)).
  - exact three_of_9_wf.
  - change (0 < 2 <= 2). lia.
  - reflexivity.
  - simpl. rewrite SIZE_MAX_eq. lia.
Defined.

(** X17: stack.h, on a valid stack: when the shrink that pop attempts is
    granted and the allocator moves the buffer to a fresh block, the stack
    pop leaves is valid, but the pointer pop returns still points into the
    old block, which is released: nothing can be read through it. *)
Theorem stack_pop_relocated_pointer_dangles (s : gstack) (m : mem) :
  wf s m -> 0 < size s - 1 <= cap s / 4 -> blk (data s) <> nextblock m ->
  exists q s' m',
    stack_pop (Grant true) s m = Some ((Some q, s'), m') /\
    wf s' m' /\ size s' = size s - 1 /\
    blk q = blk (data s) /\ blk (data s') = nextblock m /\
    blocks m' !! blk q = None /\
    forall n, load m' q n = None.
Proof.
  intros Hwf Hn Hfresh.
  destruct (pops_shrink_granted true s m Hwf Hn)
    as (p & m' & _ & Hpop & Hwf' & _ & Hp & _).
  destruct (stack_pop_frame _ _ _ _ _ _ Hpop) as (_ & _ & _ & Hmv & _).
  assert (Hdead : blocks m' !! blk (data s) = None).
  { destruct Hmv as [Hsame|(_ & _ & Hdead)]; [|by apply Hdead].
    rewrite Hp in Hsame. simpl in Hsame. congruence. }
  do 3 eexists. split; [exact Hpop|]. split; [exact Hwf'|].
  simpl. rewrite Hp. simpl. repeat split; auto.
  intros n. unfold load. simpl. by rewrite Hdead.
Qed.

Lemma stack_pop_relocated_pointer_dangles_witness :
  exists q s' m',
    stack_pop (Grant true) three_of_8 (mem_of buf8) = Some ((Some q, s'), m') /\
    wf s' m' /\ size s' = 2 /\
    blk q = 1%positive /\ blk (data s') = 2%positive /\
    blocks m' !! blk q = None /\
    forall n, load m' q n = None.
Proof.
  apply (stack_pop_relocated_pointer_dangles three_of_8 (mem_of buf8)).
  - exact three_of_8_wf.
  - change (0 < 2 <= 2). lia.
  - simpl. discriminate.
Defined.

(** X18: on every trace on which no push happens at a capacity above
    SIZE_MAX / 2 and no shrink at an odd capacity, gstack.h and stack.h are
    both undefined or both defined; when defined they reach the same header
    and the same memory, return as many results, and return the same results
    if no pop was answered by moving the buffer. *)
Theorem headers_agree_on_traces (BUFSIZ : Z) (os : list op) (s : gstack)
    (m : mem) :
  within_conditions os s m = true ->
  match gstack_run os s m, stack_run BUFSIZ os s m with
  | Some ((rg, sg), mg), Some ((rk, sk), mk) =>
      sg = sk /\ mg = mk /\ length rg = length rk /\
      (existsb relocating os = false -> rg = rk)
  | None, None => True
  | _, _ => False
  end.
Proof. apply runs_agree. Qed.

Lemma headers_agree_on_traces_witness :
  match gstack_run [OPop (Grant false); OPush Refuse [b1]; OPeek] three_of_8 (mem_of buf8),
        stack_run 8192 [OPop (Grant false); OPush Refuse [b1]; OPeek] three_of_8 (mem_of buf8)
  with
  | Some ((rg, sg), mg), Some ((rk, sk), mk) =>
      sg = sk /\ mg = mk /\ length rg = length rk /\
      (existsb relocating [OPop (Grant false); OPush Refuse [b1]; OPeek] = false -> rg = rk)
  | None, None => True
  | _, _ => False
  end.
Proof.
  apply (headers_agree_on_traces 8192
           [OPop (Grant false); OPush Refuse [b1]; OPeek] three_of_8 (mem_of buf8)).
  vm_compute. reflexivity.
Defined.

(** ** The invariants along every operation *)



















(** ** Pushing below the capacity of the header *)

Lemma splice_lookup_outside (bs vs : list memval) (o : Z) (j : nat) :
  0 <= o -> o + Z.of_nat (length vs) <= Z.of_nat (length bs) ->
  Z.of_nat j < o \/ o + Z.of_nat (length vs) <= Z.of_nat j ->
  splice bs o vs !! j = bs !! j.
Proof.
  intros Ho Hfit [Hlow|Hhigh]; unfold splice.
  - rewrite lookup_app_l by (rewrite length_take; lia).
    apply lookup_take_lt. lia.
  - rewrite lookup_app_r by (rewrite length_take; lia).
    rewrite lookup_app_r by (rewrite length_take; lia).
    rewrite lookup_drop. f_equal. rewrite length_take. lia.
Qed.

Lemma copy_in_no_room s elem m bs :
  blocks m !! blk (data s) = Some bs -> off (data s) = 0 ->
  0 <= size s -> 1 <= memb_size s -> size s * memb_size s <= SIZE_MAX ->
  Z.of_nat (length bs) < (size s + 1) * memb_size s ->
  copy_in s elem m = None.
Proof.
  intros Hbs Ho Hs He Hmul Hno.
  unfold copy_in, bind, memcpy, undefined, store, sz_mul.
  rewrite wrap_small by lia.
  destruct ((0 <=? memb_size s) && (memb_size s <=? Z.of_nat (length elem))) eqn:G;
    [|reflexivity].
  apply andb_prop in G as [_ G]. apply Z.leb_le in G.
  cbn [ptr_add blk off]. rewrite Hbs, Ho.
  rewrite length_take.
  replace (0 + size s * memb_size s
           + Z.of_nat (Z.to_nat (memb_size s) `min` length elem)
           <=? Z.of_nat (length bs)) with false
    by (symmetry; apply Z.leb_gt; lia).
  by rewrite andb_false_r.
Qed.

(** C10: the code departs from the specification. The stack that
    create(4, 1), four pushes and a fifth push whose growth the allocator
    refuses leave behind is not full, by its header and by is_full: size 4,
    capacity 8. Its buffer still has four bytes, and every push on it, in
    gstack.h and in stack.h, copies the element to the fifth byte: it does
    not succeed, it is undefined. *)
Theorem push_below_stale_capacity_is_undefined :
  exists sp s m rs s' m',
    gstack_create (Grant false) (Grant false) 4 1 (Mem ∅ 1 []) = Some (Some (sp, s), m) /\
    stack_create (Grant false) (Grant false) 4 1 (Mem ∅ 1 []) = Some (Some (sp, s), m) /\
    gstack_run refused_growth s m = Some ((rs, s'), m') /\
    stack_run 8192 refused_growth s m = Some ((rs, s'), m') /\
    rs = [RBool true; RBool true; RBool true; RBool true; RBool false; RBool false] /\
    size s' = 4 /\ cap s' = 8 /\ memb_size s' = 1 /\
    gstack_is_full s' = false /\ stack_is_full s' = false /\
    blocks m' !! blk (data s') = Some buf4 /\
    forall v elem,
      gstack_push v s' elem m' = None /\ stack_push 8192 v s' elem m' = None.
Proof.
  do 6 eexists.
  split; [vm_compute; reflexivity|]. split; [vm_compute; reflexivity|].
  split; [vm_compute; reflexivity|]. split; [vm_compute; reflexivity|].
  repeat (split; [reflexivity|]).
  intros v elem. unfold gstack_push, stack_push.
  cbn [size cap]. change (4 >=? 8) with false. cbv iota.
  split; eapply copy_in_no_room; cbn [size cap memb_size data blk off blocks];
    rewrite ?SIZE_MAX_eq; try reflexivity; cbn [length buf4]; lia.
Qed.

(** X19: a push on a stack that is not full by its header, whose buffer is
    live and whose [cap * memb_size] fits size_t, in both headers and
    whatever the allocator would answer. If the buffer has room for one more
    element, the push returns true, the header changes in [size] only, no
    allocator request is made, and the memory changes in the buffer only,
    which keeps its length and every byte outside the new slot while the
    slot receives the first [memb_size] bytes of the element. If the buffer
    has no room (the header overstates the capacity) the push is
    undefined. *)
Theorem push_below_capacity (BUFSIZ : Z) (v : verdict) (s : gstack)
    (elem : list memval) (m : mem) (bs : list memval) :
  blocks m !! blk (data s) = Some bs -> off (data s) = 0 ->
  1 <= memb_size s -> 0 <= size s < cap s ->
  cap s * memb_size s <= SIZE_MAX ->
  memb_size s <= Z.of_nat (length elem) ->
  let new := take (Z.to_nat (memb_size s)) elem in
  let bs' := splice bs (size s * memb_size s) new in
  let m' := Mem (<[blk (data s) := bs']> (blocks m)) (nextblock m) (calls m) in
  ((size s + 1) * memb_size s <= Z.of_nat (length bs) ->
     gstack_push v s elem m = Some ((true, set_size s (size s + 1)), m') /\
     stack_push BUFSIZ v s elem m = Some ((true, set_size s (size s + 1)), m') /\
     length bs' = length bs /\
     (forall j : nat,
        Z.of_nat j < size s * memb_size s \/
        (size s + 1) * memb_size s <= Z.of_nat j -> bs' !! j = bs !! j) /\
     load m' (slot s (size s)) (memb_size s) = Some new) /\
  (Z.of_nat (length bs) < (size s + 1) * memb_size s ->
     gstack_push v s elem m = None /\ stack_push BUFSIZ v s elem m = None).
Proof.
  intros Hbs Hbase Hmemb Hsz Hfit Hel new bs' m'. subst m' bs' new.
  assert (Hnew : Z.of_nat (length (take (Z.to_nat (memb_size s)) elem)) = memb_size s)
    by (rewrite length_take; lia).
  unfold gstack_push, stack_push. rewrite geb_false by lia.
  split.
  - intros Hroom.
    rewrite (copy_in_room s elem m bs) by (auto; nia).
    split; [reflexivity|]. split; [reflexivity|]. split; [|split].
    + apply length_splice; nia.
    + intros j Hj. apply splice_lookup_outside; [nia|nia|]. rewrite Hnew. lia.
    + erewrite load_lookup;
        [|simpl; apply lookup_insert_eq|simpl; rewrite ?length_splice; nia..].
      simpl. rewrite Hbase. simpl. f_equal. unfold splice.
      replace (Z.to_nat (memb_size s))
        with (length (take (Z.to_nat (memb_size s)) elem)) at 1
        by (rewrite length_take; lia).
      apply slice_app_at. nia.
  - intros Hno. split; apply (copy_in_no_room s elem m bs); auto; nia.
Qed.

Lemma push_below_capacity_witness :
  gstack_push Refuse three_of_8 [b1] (mem_of buf8)
    = Some ((true, Hdr (Ptr 1 0) 4 8 1),
            mem_of [b1; b2; b3; b1; Undef; Undef; Undef; Undef]) /\
  stack_push 8192 Refuse three_of_8 [b1] (mem_of buf8)
    = Some ((true, Hdr (Ptr 1 0) 4 8 1),
            mem_of [b1; b2; b3; b1; Undef; Undef; Undef; Undef]).
Proof.
  destruct (push_below_capacity 8192 Refuse three_of_8 [b1] (mem_of buf8) buf8)
    as [Hroom _]; try reflexivity; try (simpl; rewrite ?SIZE_MAX_eq; lia).
  destruct Hroom as (Hg & Hk & _); [simpl; lia|].
  split; [exact Hg|exact Hk].
Defined.
